(** * q.js: a shallow embedding of the collection toolkit and its properties

    The library of [src/q.js] is a namespace [Q] of functions over JavaScript
    arrays and plain objects.  This file embeds the part of JavaScript those
    functions run on (values, the store of records, property reads, the
    coercing operators [==], [<], [>], [*], truthiness and property-key
    conversion), then the functions of [Q] themselves, and proves the
    properties of them.

    Conventions of the embedding.
    - A number is an exact integer or [NaN]: the arithmetic of the source is
      exact on integers; fractions, infinities and rounding are outside the
      model.
    - A record (a plain object) lives in the store and a value refers to it
      by its location, so that [==] on two records is identity and a call that
      builds a record allocates one.  The prototype chain is not modelled: a
      record has its own entries only, none inherited from
      [Object.prototype], and [__proto__] is a key like any other.
    - An array that occurs as an element carries its elements and an
      identity: [Q] never writes to an array, it only builds new ones.
    - A sequence passed to or returned by a function of [Q] is the list of its
      elements; the mapping returned by [Q.group] is a finite map of lists.
    - The enumeration order of [for (key in obj)] is the order of the finite
      map.  [Q.collect] and [Q.abate] return their results in that order; no
      property below depends on which order it is.
    - A callback reads the store, may throw, and does not write; the function
      given to [Q.expand] builds the record it returns, so it may allocate. *)

From Stdlib Require Import ZArith String Ascii List Lia Permutation Sorted.
From Stdlib Require Import OrderedTypeEx.
From stdpp Require Import gmap strings list pretty sorting.
From Equations Require Import Equations.

Open Scope Z_scope.

(** * The host language *)

(** ** Values and the store *)

Definition loc := nat.

Inductive number :=
| Finite (z : Z)
| NaN.

#[warnings="-register-all"]
Inductive value :=
| VUndefined
| VNull
| VBool (b : bool)
| VNum (n : number)
| VStr (s : string)
| VRef (l : loc)
| VArr (id : nat) (items : list value).

Arguments VRef l%_nat_scope.
Arguments VArr id%_nat_scope items.

(** The entries of a record. *)
Abbreviation record := (gmap string value).

(** The store: the records allocated so far, by location. *)
Abbreviation heap := (list record).

Inductive error :=
| TypeError.

Inductive result (A : Type) :=
| Ok (a : A)
| Throw (e : error).

Arguments Ok {A} a.
Arguments Throw {A} e.

#[global] Instance result_ret : MRet result := fun A a => Ok a.

#[global] Instance result_bind : MBind result :=
  fun A B f r => match r with Ok a => f a | Throw e => Throw e end.

(** A computation that may allocate. *)
Definition M (A : Type) : Type := heap -> result (A * heap).

(** A callback: [function (x) { ... }] reading the store. *)
Definition callback : Type := value -> heap -> result value.

(** A callback on an entry: [function (value, key) { ... }]. *)
Definition callback2 : Type := value -> value -> heap -> result value.

Definition num (z : Z) : value := VNum (Finite z).

(** [new Object] with the given entries. *)
Definition alloc (fields : record) : M value :=
  fun h => Ok (VRef (length h), h ++ [fields]).

Definition fields_of (h : heap) (v : value) : option record :=
  match v with
  | VRef l => h !! l
  | _ => None
  end.

(** ** Conversions *)

(** ToBoolean. *)
Definition truthy (v : value) : bool :=
  match v with
  | VUndefined | VNull => false
  | VBool b => b
  | VNum (Finite z) => negb (z =? 0)
  | VNum NaN => false
  | VStr s => negb (String.eqb s "")
  | VRef _ | VArr _ _ => true
  end.

Definition number_to_string (n : number) : string :=
  match n with
  | Finite z => pretty z
  | NaN => "NaN"
  end.

(** ToString; an array is its elements joined by commas, with [undefined]
    and [null] elements left empty, a record is ["[object Object]"]. *)
Fixpoint to_string (v : value) : string :=
  match v with
  | VUndefined => "undefined"
  | VNull => "null"
  | VBool true => "true"
  | VBool false => "false"
  | VNum n => number_to_string n
  | VStr s => s
  | VRef _ => "[object Object]"
  | VArr _ items =>
      String.concat ","
        (List.map (fun x => match x with
                            | VUndefined | VNull => ""
                            | _ => to_string x
                            end) items)
  end.

(** ToPrimitive: the [valueOf] of a record or an array is itself, so the
    conversion falls through to [toString]. *)
Definition to_primitive (v : value) : value :=
  match v with
  | VRef _ | VArr _ _ => VStr (to_string v)
  | _ => v
  end.

Definition is_white (c : ascii) : bool :=
  let n := nat_of_ascii c in
  ((9 <=? n) && (n <=? 13))%nat || (n =? 32)%nat.

Fixpoint drop_white (s : string) : string :=
  match s with
  | String c s' => if is_white c then drop_white s' else s
  | EmptyString => EmptyString
  end.

Definition trim (s : string) : string :=
  String.rev (drop_white (String.rev (drop_white s))).

Definition digit (c : ascii) : option Z :=
  let n := nat_of_ascii c in
  if ((48 <=? n) && (n <=? 57))%nat then Some (Z.of_nat n - 48) else None.

Fixpoint digits (acc : Z) (s : string) : option Z :=
  match s with
  | EmptyString => Some acc
  | String c s' =>
      match digit c with
      | Some d => digits (10 * acc + d) s'
      | None => None
      end
  end.

Definition unsigned_literal (s : string) : number :=
  match s with
  | EmptyString => NaN
  | _ => match digits 0 s with Some z => Finite z | None => NaN end
  end.

Definition number_neg (n : number) : number :=
  match n with
  | Finite z => Finite (- z)
  | NaN => NaN
  end.

(** ToNumber on a string, for the integer literals: white space is trimmed,
    the empty string is [0], a sign may precede the digits; a string that is
    not an integer literal is [NaN]. *)
Definition string_to_number (s : string) : number :=
  match trim s with
  | EmptyString => Finite 0
  | String "-" r => number_neg (unsigned_literal r)
  | String "+" r => unsigned_literal r
  | t => unsigned_literal t
  end.

(** ToNumber. *)
Definition to_number (v : value) : number :=
  match to_primitive v with
  | VUndefined => NaN
  | VNull => Finite 0
  | VBool b => Finite (if b then 1 else 0)
  | VNum n => n
  | VStr s => string_to_number s
  | VRef _ | VArr _ _ => NaN
  end.

(** ** Operators *)

Definition number_eqb (x y : number) : bool :=
  match x, y with
  | Finite a, Finite b => a =? b
  | _, _ => false
  end.

Definition number_ltb (x y : number) : bool :=
  match x, y with
  | Finite a, Finite b => a <? b
  | _, _ => false
  end.

Definition number_mul (x y : number) : number :=
  match x, y with
  | Finite a, Finite b => Finite (a * b)
  | _, _ => NaN
  end.

(** [a == b]: values of one type compare as [===] does (records and arrays
    by identity, [NaN] equal to nothing), [undefined] and [null] equal each
    other and nothing else, and the mixed cases coerce. *)
Definition loose_eq (a b : value) : bool :=
  match a, b with
  | (VUndefined | VNull), (VUndefined | VNull) => true
  | (VUndefined | VNull), _ | _, (VUndefined | VNull) => false
  | VNum x, VNum y => number_eqb x y
  | VStr s, VStr t => String.eqb s t
  | VBool x, VBool y => Bool.eqb x y
  | VRef l, VRef l' => Nat.eqb l l'
  | VArr i _, VArr j _ => Nat.eqb i j
  | VRef _, VArr _ _ | VArr _ _, VRef _ => false
  | VStr s, (VRef _ | VArr _ _) => String.eqb s (to_string b)
  | (VRef _ | VArr _ _), VStr t => String.eqb (to_string a) t
  | _, _ => number_eqb (to_number a) (to_number b)
  end.

(** [a < b]: two strings compare by code units, anything else as numbers,
    and a comparison with [NaN] is false. *)
Definition js_lt (a b : value) : bool :=
  match to_primitive a, to_primitive b with
  | VStr s, VStr t => String.ltb s t
  | pa, pb => number_ltb (to_number pa) (to_number pb)
  end.

(** [a > b]. *)
Definition js_gt (a b : value) : bool := js_lt b a.

(** [a * b]. *)
Definition js_mul (a b : value) : value :=
  VNum (number_mul (to_number a) (to_number b)).

(** ** Property reads *)

(** The array index a property key denotes, if it is a canonical one. *)
Definition array_index (key : string) : option nat :=
  match unsigned_literal key with
  | Finite z => if String.eqb (pretty z) key then Some (Z.to_nat z) else None
  | NaN => None
  end.

Definition string_of_ascii (c : ascii) : string := String c EmptyString.

(** [obj[key]]: throws on [undefined] and [null]; a missing entry reads as
    [undefined]. *)
Definition get (h : heap) (obj : value) (key : string) : result value :=
  match obj with
  | VUndefined | VNull => Throw TypeError
  | VBool _ | VNum _ => Ok VUndefined
  | VStr s =>
      if String.eqb key "length" then Ok (num (Z.of_nat (String.length s)))
      else match array_index key with
           | Some i => Ok (from_option (fun c => VStr (string_of_ascii c))
                             VUndefined (String.get i s))
           | None => Ok VUndefined
           end
  | VArr _ items =>
      if String.eqb key "length" then Ok (num (Z.of_nat (length items)))
      else match array_index key with
           | Some i => Ok (default VUndefined (items !! i))
           | None => Ok VUndefined
           end
  | VRef l =>
      match h !! l with
      | Some m => Ok (default VUndefined (m !! key))
      | None => Ok VUndefined
      end
  end.

Definition indices (n : nat) : list string :=
  List.map (fun i : nat => pretty i) (seq 0 n).

(** The keys [for (key in obj)] enumerates. *)
Definition keys (h : heap) (obj : value) : list string :=
  match obj with
  | VRef l =>
      match h !! l with
      | Some m => (map_to_list m).*1
      | None => []
      end
  | VArr _ items => indices (length items)
  | VStr s => indices (String.length s)
  | _ => []
  end.

(** ** The arguments that are a function or a description of one *)

(** [typeof f == 'function' ? f : Q.mold(f)]: a predicate or a Spec. *)
Inductive matcher :=
| Predicate (f : callback)
| Spec (spec : value).

(** [typeof f == 'function' ? f : Q.field(f)]: a key function or a field
    name. *)
Inductive key_specifier :=
| KeyFn (f : callback)
| FieldName (name : string).

(** The pair [{key: ..., val: ...}] that [Q.sort] decorates an element with;
    it does not leave [Q.sort] and is not entered in the store. *)
Record keyed := Keyed { key : value; val : value }.

(** [a[i]], [undefined] out of range. *)
Definition at_index (a : list value) (i : nat) : value :=
  default VUndefined (a !! i).

(** [arr.concat(elt)]: an argument that is an array is spread. *)
Definition concat (arr : list value) (elt : value) : list value :=
  match elt with
  | VArr _ items => arr ++ items
  | _ => arr ++ [elt]
  end.

(** [a.sort(comparefn)].  The sort is the host's: ECMAScript requires it to
    be stable and leaves the order to the implementation when [comparefn] is
    not a consistent comparator.  It is modelled as the insertion sort that
    engines run on short arrays: [a[0..i)] is sorted and [a[i]] moves left
    past every [a[j]] with [comparefn(a[j], a[i]) > 0].  The sorted prefix is
    kept reversed, nearest element first. *)
Fixpoint insert_rev {A} (comparefn : A -> A -> Z) (element : A)
    (rprefix : list A) : list A :=
  match rprefix with
  | [] => [element]
  | tmp :: rest =>
      if 0 <? comparefn tmp element
      then tmp :: insert_rev comparefn element rest
      else element :: rprefix
  end.

Definition array_sort {A} (comparefn : A -> A -> Z) (a : list A) : list A :=
  rev (fold_left (fun rprefix element => insert_rev comparefn element rprefix)
         a []).

(** * The library *)

Module Q.

(** [Q.field(property)], the one-argument form. *)
Definition field (property : string) : callback :=
  fun obj h => get h obj property.

Definition identity (x : value) : value := x.

Fixpoint mold_loop (h : heap) (spec obj : value) (ks : list string)
    : result value :=
  match ks with
  | [] => Ok (VBool true)
  | key :: ks' =>
      s ← get h spec key;
      o ← get h obj key;
      if negb (loose_eq s o) then Ok (VBool false)
      else mold_loop h spec obj ks'
  end.

Definition mold (spec : value) : callback :=
  fun obj h => mold_loop h spec obj (keys h spec).

Fixpoint map_loop {A B} (f : A -> nat -> M B) (list_ : list A) (i : nat)
    : M (list B) :=
  fun h =>
    match list_ with
    | [] => Ok ([], h)
    | x :: rest =>
        '(y, h1) ← f x i h;
        '(res, h2) ← map_loop f rest (S i) h1;
        Ok (y :: res, h2)
    end.

Definition map {A B} (f : A -> nat -> M B) (list_ : list A) : M (list B) :=
  map_loop f list_ 0%nat.

Fixpoint reduce {A} (fn : A -> value -> result A) (res : A)
    (arr : list value) : result A :=
  match arr with
  | [] => Ok res
  | x :: arr' => res' ← fn res x; reduce fn res' arr'
  end.

(** [for (key in obj) res[key] = obj[key];] *)
Fixpoint copy_entries (h : heap) (obj : value) (ks : list string)
    (res : record) : result record :=
  match ks with
  | [] => Ok res
  | key :: ks' => v ← get h obj key; copy_entries h obj ks' (<[key := v]> res)
  end.

(** The new record is entered in the store once it is filled. *)
Definition mixin (left right : value) : M value :=
  fun h =>
    res ← copy_entries h left (keys h left) ∅;
    res ← copy_entries h right (keys h right) res;
    alloc res h.

Fixpoint single_loop (fn : callback) (h : heap) (list_ : list value)
    : result value :=
  match list_ with
  | [] => Ok VUndefined
  | x :: rest =>
      b ← fn x h;
      if truthy b then Ok x else single_loop fn h rest
  end.

Definition single (f : matcher) (list_ : list value) (h : heap)
    : result value :=
  let fn := match f with Predicate f => f | Spec f => mold f end in
  single_loop fn h list_.

Fixpoint filter_loop (fn : callback) (h : heap) (list_ res : list value)
    : result (list value) :=
  match list_ with
  | [] => Ok res
  | x :: rest =>
      b ← fn x h;
      filter_loop fn h rest (if truthy b then res ++ [x] else res)
  end.

Definition filter (f : matcher) (list_ : list value) (h : heap)
    : result (list value) :=
  let fn := match f with Predicate f => f | Spec f => mold f end in
  filter_loop fn h list_ [].

(** [rKey] is [None] when the argument is omitted. *)
Definition amend (left right : list value) (lKey : string)
    (rKey : option string) : M (list value) :=
  let rKey := match rKey with
              | Some k => if truthy (VStr k) then k else lKey
              | None => lKey
              end in
  map (fun l (_ : nat) h =>
         found ← single (Predicate (fun r h =>
                    a ← get h l lKey;
                    b ← get h r rKey;
                    Ok (VBool (loose_eq a b)))) right h;
         if truthy found then mixin l found h
         else '(empty, h1) ← alloc ∅ h; mixin l empty h1)
      left.

Fixpoint min_loop (fn : callback) (h : heap) (list_ : list value)
    (item res : value) : result value :=
  match list_ with
  | [] => Ok item
  | x :: rest =>
      current ← fn x h;
      if js_lt current res then min_loop fn h rest x current
      else min_loop fn h rest item res
  end.

Definition min (f : key_specifier) (list_ : list value) (h : heap)
    : result value :=
  let fn := match f with KeyFn f => f | FieldName f => field f end in
  let item := at_index list_ 0 in
  res ← fn (at_index list_ 0) h;
  min_loop fn h list_ item res.

Fixpoint max_loop (fn : callback) (h : heap) (list_ : list value)
    (item res : value) : result value :=
  match list_ with
  | [] => Ok item
  | x :: rest =>
      current ← fn x h;
      if js_gt current res then max_loop fn h rest x current
      else max_loop fn h rest item res
  end.

Definition max (f : key_specifier) (list_ : list value) (h : heap)
    : result value :=
  let fn := match f with KeyFn f => f | FieldName f => field f end in
  let item := at_index list_ 0 in
  res ← fn (at_index list_ 0) h;
  max_loop fn h list_ item res.

Definition group (f : key_specifier) (list_ : list value) (h : heap)
    : result (gmap string (list value)) :=
  let fn := match f with KeyFn f => f | FieldName f => field f end in
  reduce (fun acc elt =>
            key ← fn elt h;
            let k := to_string key in
            Ok (<[k := match acc !! k with
                       | Some bucket => concat bucket elt
                       | None => [elt]
                       end]> acc))
         ∅ list_.

Definition _keyValue (fn : callback) (list_ : list value) : M (list keyed) :=
  map (fun item (_ : nat) h =>
         k ← fn item h; Ok ({| key := k; val := item |}, h))
      list_.

Definition _compareKeys (a b : keyed) : Z :=
  if js_lt (key a) (key b) then -1
  else if js_gt (key a) (key b) then 1 else 0.


(** [Q.pluck('val', ...)] on the decorated pairs. *)
Definition pluck_val (list_ : list keyed) : M (list value) :=
  map (fun d (_ : nat) h => Ok (val d, h)) list_.

Definition sort (f : key_specifier) (list_ : list value) : M (list value) :=
  let fn := match f with
            | KeyFn f => f
            | FieldName (String "-" rest) =>
                fun d h => x ← get h d rest; Ok (js_mul (num (-1)) x)
            | FieldName f => field f
            end in
  fun h =>
    '(kvs, h1) ← _keyValue fn list_ h;
    pluck_val (array_sort _compareKeys kvs) h1.

(** [for (; i < end; i += step) res.push(i);] under [step > 0]. *)
Equations? lay_up (end_ step : Z) (Hstep : 0 < step) (i : Z) (res : list Z)
    : list Z by wf (Z.to_nat (end_ - i)) lt :=
  lay_up end_ step Hstep i res with decide (i < end_) => {
    | left _ => lay_up end_ step Hstep (i + step) (res ++ [i]);
    | right _ => res }.
Proof. lia. Qed.

(** [for (; i > end; i += step) res.push(i);] under [step < 0]. *)
Equations? lay_down (end_ step : Z) (Hstep : step < 0) (i : Z) (res : list Z)
    : list Z by wf (Z.to_nat (i - end_)) lt :=
  lay_down end_ step Hstep i res with decide (end_ < i) => {
    | left _ => lay_down end_ step Hstep (i + step) (res ++ [i]);
    | right _ => res }.
Proof. lia. Qed.

(** [start] and [step] are [None] when omitted ([undefined] or [null]). *)
Definition lay (end_ : Z) (start step : option Z) : list Z :=
  let start := match start with
               | Some s => if truthy (num s) then s else 0
               | None => 0
               end in
  let step := match step with None => 1 | Some s => s end in
  match decide (0 < step) with
  | left Hstep => lay_up end_ step Hstep start []
  | right _ =>
      match decide (step < 0) with
      | left Hstep => lay_down end_ step Hstep start []
      | right _ => []
      end
  end.

(** [for (var key in obj) res.push(f(obj[key], key));] *)
Fixpoint collect_loop (f : callback2) (h : heap) (obj : value)
    (ks : list string) (res : list value) : result (list value) :=
  match ks with
  | [] => Ok res
  | key :: ks' =>
      v ← get h obj key;
      y ← f v (VStr key) h;
      collect_loop f h obj ks' (res ++ [y])
  end.

Definition collect (f : callback2) (obj : value) (h : heap)
    : result (list value) :=
  collect_loop f h obj (keys h obj) [].

(** [for (var key in obj) acc = f(acc, obj[key], key);] *)
Fixpoint taper_loop {A} (f : A -> value -> value -> result A) (h : heap)
    (obj : value) (ks : list string) (acc : A) : result A :=
  match ks with
  | [] => Ok acc
  | key :: ks' =>
      v ← get h obj key;
      acc' ← f acc v (VStr key);
      taper_loop f h obj ks' acc'
  end.

Definition taper {A} (f : A -> value -> value -> result A) (acc : A)
    (obj : value) (h : heap) : result A :=
  taper_loop f h obj (keys h obj) acc.



(** [for (var key in obj) res = res.concat(f(obj[key], key));] *)
Fixpoint abate_loop (f : callback2) (h : heap) (obj : value)
    (ks : list string) (res : list value) : result (list value) :=
  match ks with
  | [] => Ok res
  | key :: ks' =>
      v ← get h obj key;
      y ← f v (VStr key) h;
      abate_loop f h obj ks' (concat res y)
  end.

Definition abate (f : callback2) (obj : value) (h : heap)
    : result (list value) :=
  abate_loop f h obj (keys h obj) [].


End Q.

(** * The vocabulary of the properties *)

(** ** What the arguments resolve to *)

(** The predicate [Q.single] and [Q.filter] test an element with. *)
Definition resolve_matcher (f : matcher) : callback :=
  match f with
  | Predicate f => f
  | Spec f => Q.mold f
  end.

(** The key function of [Q.min], [Q.max] and [Q.group]. *)
Definition resolve_key (f : key_specifier) : callback :=
  match f with
  | KeyFn f => f
  | FieldName f => Q.field f
  end.

(** The key function [Q.sort] resolves its first argument to. *)
Definition sort_key (f : key_specifier) : callback :=
  match f with
  | KeyFn f => f
  | FieldName (String "-" rest) =>
      fun d h => x ← get h d rest; Ok (js_mul (num (-1)) x)
  | FieldName f => Q.field f
  end.

(** What the callback returns on [x], [undefined] if it throws. *)
Definition key_of (fn : callback) (h : heap) (x : value) : value :=
  match fn x h with
  | Ok k => k
  | Throw _ => VUndefined
  end.

(** ** Records *)

(** [r[key]] of a record with entries [m]. *)
Definition entry (m : record) (key : string) : value :=
  default VUndefined (m !! key).

(** The entries of [left] overridden by those of [right]. *)
Definition merged (left right : record) (k : string) : option value :=
  match right !! k with
  | Some v => Some v
  | None => left !! k
  end.

Definition is_record (h : heap) (v : value) : Prop := is_Some (fields_of h v).

(** [v[key]] for a record of the store. *)
Definition field_value (h : heap) (v : value) (key : string) : value :=
  entry (default ∅ (fields_of h v)) key.

(** ** [Q.single] *)

(** The element satisfies the predicate: the call returns a truthy value. *)
Definition satisfies (f : matcher) (h : heap) (x : value) : Prop :=
  exists b, resolve_matcher f x h = Ok b /\ truthy b = true.

(** The element does not: the call returns a falsy value. *)
Definition rejects (f : matcher) (h : heap) (x : value) : Prop :=
  exists b, resolve_matcher f x h = Ok b /\ truthy b = false.

(** ** [Q.amend] *)

(** [l[lKey] == r[rKey]]. *)
Definition join_match (h : heap) (lKey rKey : string) (l r : value) : bool :=
  loose_eq (field_value h l lKey) (field_value h r rKey).

(** The key the right elements are read at, as [rKey || lKey] chooses it:
    [lKey] when [rKey] is omitted or is the empty string. *)
Definition right_key (lKey : string) (rKey : option string) : string :=
  match rKey with
  | Some k => if String.eqb k "" then lKey else k
  | None => lKey
  end.



(** The function [Q.amend] maps over [left]. *)
Definition amend_step (right : list value) (lKey rKey : string)
    : value -> nat -> M value :=
  fun l (_ : nat) h =>
    found ← Q.single (Predicate (fun r h =>
               a ← get h l lKey;
               b ← get h r rKey;
               Ok (VBool (loose_eq a b)))) right h;
    if truthy found then Q.mixin l found h
    else '(empty, h1) ← alloc ∅ h; Q.mixin l empty h1.


(** ** [Q.group] *)

(** The elements whose key stringifies to [k], in their order. *)
Definition bucket_of (fn : callback) (h : heap) (k : string)
    (list_ : list value) : list value :=
  List.filter (fun x => String.eqb (to_string (key_of fn h x)) k) list_.

Definition is_array (v : value) : bool :=
  match v with
  | VArr _ _ => true
  | _ => false
  end.

(** A bucket of the accumulator after more elements went in. *)
Definition extended (old : option (list value)) (more : list value)
    : option (list value) :=
  match more with
  | [] => old
  | _ => Some (default [] old ++ more)
  end.

(** The function [Q.group] folds the sequence with. *)
Definition group_step (fn : callback) (h : heap)
    (acc : gmap string (list value)) (elt : value)
    : result (gmap string (list value)) :=
  key ← fn elt h;
  let k := to_string key in
  Ok (<[k := match acc !! k with
             | Some bucket => concat bucket elt
             | None => [elt]
             end]> acc).

(** ** [Q.lay] *)


(** ** [Q.sort] *)

(** The pair an element is decorated with. *)
Definition decorate (fn : callback) (h : heap) (x : value) : keyed :=
  {| key := key_of fn h x; val := x |}.

(** The pair carries the key of its element. *)
Definition decorated (fn : callback) (h : heap) (d : keyed) : Prop :=
  key d = key_of fn h (val d).


(** [<] on the keys [ks] is transitive, and so is its negation: the keys are
    ranked, some of them possibly at the same rank. *)
Definition keys_ordered (ks : list value) : Prop :=
  (forall a b c, In a ks -> In b ks -> In c ks ->
     js_lt a b = true -> js_lt b c = true -> js_lt a c = true) /\
  (forall a b c, In a ks -> In b ks -> In c ks ->
     js_lt a b = false -> js_lt b c = false -> js_lt a c = false).


(** What [Q.sort] returns when every element has a key. *)
Definition sorted_values (fn : callback) (h : heap) (list_ : list value)
    : list value :=
  List.map val (array_sort Q._compareKeys (List.map (decorate fn h) list_)).



(** ** The stores of the examples *)

(** [xs = [{a: 1}, {a: 2}, {a: 3}]], and the Specs [{a: 2}] and [{a: 4}]. *)
Definition single_store : heap :=
  [ {[ "a" := num 1 ]}; {[ "a" := num 2 ]}; {[ "a" := num 3 ]};
    {[ "a" := num 2 ]}; {[ "a" := num 4 ]} ].

(** The Spec [{a: 1}] on the record [{a: 1, b: 1}]. *)
Definition mold_store : heap :=
  [ {[ "a" := num 1 ]}; {[ "a" := num 1; "b" := num 1 ]} ].

(** [mixin({a: 1, b: 1}, {a: 9})]. *)
Definition mixin_store : heap :=
  [ {[ "a" := num 1; "b" := num 1 ]}; {[ "a" := num 9 ]} ].

(** [left = [{id: 1, b: 2}, {id: 2, b: 2}]], [right = [{id: 1, d: 4}]]. *)
Definition amend_store : heap :=
  [ {[ "id" := num 1; "b" := num 2 ]}; {[ "id" := num 2; "b" := num 2 ]};
    {[ "id" := num 1; "d" := num 4 ]} ].


(** [[{age: 2}, {}, {age: 1}]]: the second record has no [age]. *)
Definition ages_store : heap :=
  [ {[ "age" := num 2 ]}; ∅; {[ "age" := num 1 ]} ].

(** [[{age: 3}, {age: 1}, {age: 3}, {age: 2}]]. *)
Definition sort_store : heap :=
  [ {[ "age" := num 3 ]}; {[ "age" := num 1 ]}; {[ "age" := num 3 ]};
    {[ "age" := num 2 ]} ].

(** ** The vocabulary of the further properties *)

(** A key that [<] and [>] relate to nothing: [NaN] or [undefined]. *)
Definition incomparable (k : value) : Prop :=
  k = VNum NaN \/ k = VUndefined.

(** A callback that only reads the store, as [Q.map] takes it. *)
Definition read_only {A B} (g : A -> nat -> heap -> result B)
    : A -> nat -> M B :=
  fun x i h => y ← g x i h; Ok (y, h).

(** The resolved predicate is truthy on [x]. *)
Definition holds (f : matcher) (h : heap) (x : value) : bool :=
  truthy (key_of (resolve_matcher f) h x).

(** What [concat] appends for [elt]: its members when it is an array, itself
    otherwise. *)
Definition spread (elt : value) : list value :=
  match elt with
  | VArr _ items => items
  | _ => [elt]
  end.






(** * Properties *)

(** A closed instance is settled by evaluation. *)
Ltac evaluate := vm_compute; reflexivity.

(** ** Reading records *)

Lemma get_record (h : heap) (v : value) (m : record) (key : string) :
  fields_of h v = Some m -> get h v key = Ok (entry m key).
Proof.
  destruct v; simpl; try discriminate.
  intros ->. reflexivity.
Qed.

Lemma keys_record (h : heap) (v : value) (m : record) :
  fields_of h v = Some m -> keys h v = (map_to_list m).*1.
Proof.
  destruct v; simpl; try discriminate.
  intros ->. reflexivity.
Qed.

Lemma key_of_record (m : record) (k : string) :
  k ∈ (map_to_list m).*1 <-> is_Some (m !! k).
Proof.
  rewrite list_elem_of_fmap. split.
  - intros [[k' v] [-> Hin]]. apply elem_of_map_to_list in Hin. eauto.
  - intros [v Hv]. exists (k, v). split; [done|].
    by apply elem_of_map_to_list.
Qed.

Lemma fields_of_app (h ext : heap) (v : value) (m : record) :
  fields_of h v = Some m -> fields_of (h ++ ext) v = Some m.
Proof.
  destruct v; try discriminate. unfold fields_of.
  intros Hl. rewrite lookup_app_l; [done|]. by eapply lookup_lt_Some.
Qed.


Lemma fields_of_alloc (h : heap) (m : record) :
  fields_of (h ++ [m]) (VRef (length h)) = Some m.
Proof.
  unfold fields_of. rewrite lookup_app_r by lia.
  by rewrite Nat.sub_diag.
Qed.

Lemma get_field_value (h : heap) (v : value) (key : string) :
  is_record h v -> get h v key = Ok (field_value h v key).
Proof.
  intros [m Hm]. unfold field_value. rewrite Hm. by apply get_record.
Qed.


Lemma is_record_truthy (h : heap) (v : value) : is_record h v -> truthy v = true.
Proof. intros [m Hm]. by destruct v. Qed.

Lemma key_of_ok (fn : callback) (h : heap) (x k : value) :
  fn x h = Ok k -> key_of fn h x = k.
Proof. intros Hk. unfold key_of. by rewrite Hk. Qed.

(** ** [Q.min] and [Q.max] *)

Lemma min_loop_returns (fn : callback) (h : heap) (list_ : list value) :
  forall item res,
    (forall x, In x list_ -> exists k, fn x h = Ok k) ->
    exists y, Q.min_loop fn h list_ item res = Ok y /\ (y = item \/ In y list_).
Proof.
  induction list_ as [|x rest IH]; intros item res Htotal; simpl.
  - eauto.
  - destruct (Htotal x) as [k ->]; [by left|]. simpl.
    destruct (js_lt k res).
    + destruct (IH x k) as (y & -> & Hy); [intros; apply Htotal; by right|].
      exists y. split; [done|]. right. destruct Hy as [->|Hy]; simpl; auto.
    + destruct (IH item res) as (y & -> & Hy); [intros; apply Htotal; by right|].
      exists y. split; [done|]. destruct Hy as [->|Hy]; simpl; auto.
Qed.

Lemma max_loop_returns (fn : callback) (h : heap) (list_ : list value) :
  forall item res,
    (forall x, In x list_ -> exists k, fn x h = Ok k) ->
    exists y, Q.max_loop fn h list_ item res = Ok y /\ (y = item \/ In y list_).
Proof.
  induction list_ as [|x rest IH]; intros item res Htotal; simpl.
  - eauto.
  - destruct (Htotal x) as [k ->]; [by left|]. simpl.
    destruct (js_gt k res).
    + destruct (IH x k) as (y & -> & Hy); [intros; apply Htotal; by right|].
      exists y. split; [done|]. right. destruct Hy as [->|Hy]; simpl; auto.
    + destruct (IH item res) as (y & -> & Hy); [intros; apply Htotal; by right|].
      exists y. split; [done|]. destruct Hy as [->|Hy]; simpl; auto.
Qed.

(** A field name gives a key to every element but [undefined] and [null]. *)
Lemma field_name_total (name : string) (x : value) (h : heap) :
  x <> VUndefined -> x <> VNull ->
  exists k, resolve_key (FieldName name) x h = Ok k.
Proof.
  intros Hundef Hnull. simpl. unfold Q.field, get.
  destruct x as [| |b|n|s|l|id items]; try done; eauto.
  - destruct (String.eqb name "length"); [eauto|].
    destruct (array_index name); eauto.
  - destruct (h !! l); eauto.
  - destruct (String.eqb name "length"); [eauto|].
    destruct (array_index name); eauto.
Qed.

(** On an empty sequence a key function that accepts [undefined] gives
    [undefined]: the loop does not run and [item] is [list[0]]. *)
Lemma min_max_empty_when_key_defined (fn : callback) (h : heap) (k : value) :
  fn VUndefined h = Ok k ->
  Q.min (KeyFn fn) [] h = Ok VUndefined /\ Q.max (KeyFn fn) [] h = Ok VUndefined.
Proof.
  intros Hk. unfold Q.min, Q.max, at_index. simpl. rewrite Hk. done.
Qed.

(** C1: on an empty sequence [Q.min] and [Q.max] seed the scan with
    [fn(list[0])], the key of [undefined]; with a field name, or with the key
    function [x => x.name], that read throws a [TypeError] where the claim
    (and the documentation of both functions) promises [undefined]. *)
Theorem min_max_empty_field_throws (name : string) (h : heap) :
  Q.min (FieldName name) [] h = Throw TypeError /\
  Q.max (FieldName name) [] h = Throw TypeError /\
  Q.min (KeyFn (fun x h => get h x name)) [] h = Throw TypeError /\
  Q.max (KeyFn (fun x h => get h x name)) [] h = Throw TypeError.
Proof. repeat split; reflexivity. Qed.

(** C10: on a non-empty sequence whose elements all have a key, [Q.min] and
    [Q.max] return an element of the sequence; on a one-element sequence they
    return that element, whatever its key is. *)
Theorem min_max_return_an_element (f : key_specifier) (list_ : list value)
    (h : heap) :
  list_ <> [] ->
  (forall x, In x list_ -> exists k, resolve_key f x h = Ok k) ->
  (exists x, Q.min f list_ h = Ok x /\ In x list_) /\
  (exists x, Q.max f list_ h = Ok x /\ In x list_) /\
  (forall x, list_ = [x] -> Q.min f list_ h = Ok x /\ Q.max f list_ h = Ok x).
Proof.
  intros Hne Htotal.
  destruct list_ as [|x0 rest]; [done|].
  destruct (Htotal x0) as [k0 Hk0]; [by left|].
  assert (Hmin : exists x, Q.min f (x0 :: rest) h = Ok x /\ In x (x0 :: rest)).
  { unfold Q.min, at_index. cbn [lookup list_lookup default from_option id].
    change (match f with KeyFn f0 => f0 | FieldName f0 => Q.field f0 end)
      with (resolve_key f).
    rewrite Hk0. cbn [mbind result_bind].
    destruct (min_loop_returns (resolve_key f) h (x0 :: rest) x0 k0 Htotal)
      as (y & Hy & Hin).
    exists y. split; [done|]. destruct Hin as [->|Hin]; [by left|done]. }
  assert (Hmax : exists x, Q.max f (x0 :: rest) h = Ok x /\ In x (x0 :: rest)).
  { unfold Q.max, at_index. cbn [lookup list_lookup default from_option id].
    change (match f with KeyFn f0 => f0 | FieldName f0 => Q.field f0 end)
      with (resolve_key f).
    rewrite Hk0. cbn [mbind result_bind].
    destruct (max_loop_returns (resolve_key f) h (x0 :: rest) x0 k0 Htotal)
      as (y & Hy & Hin).
    exists y. split; [done|]. destruct Hin as [->|Hin]; [by left|done]. }
  split; [done|]. split; [done|].
  intros x [= -> ->].
  destruct Hmin as (y & Hy & [->|[]]). destruct Hmax as (z & Hz & [->|[]]).
  done.
Qed.

(** An element whose key is [NaN] is the minimum and the maximum of the
    sequence it is alone in. *)
Lemma min_max_return_an_element_witness :
  Q.min (KeyFn (fun _ _ => Ok (VNum NaN))) [num 7] [] = Ok (num 7) /\
  Q.max (KeyFn (fun _ _ => Ok (VNum NaN))) [num 7] [] = Ok (num 7).
Proof.
  apply (min_max_return_an_element
           (KeyFn (fun _ _ => Ok (VNum NaN))) [num 7] []).
  - discriminate.
  - intros x _. simpl. eauto.
  - reflexivity.
Defined.

(** ** [Q.single] *)

Lemma single_loop_first (fn : callback) (h : heap) (list_ : list value) :
  forall (i : nat) x b,
    list_ !! i = Some x ->
    fn x h = Ok b -> truthy b = true ->
    (forall (j : nat) y, (j < i)%nat -> list_ !! j = Some y ->
       exists c, fn y h = Ok c /\ truthy c = false) ->
    Q.single_loop fn h list_ = Ok x.
Proof.
  induction list_ as [|x0 rest IH]; intros i x b Hi Hx Hb Hbefore.
  - discriminate.
  - destruct i as [|i]; simpl in *.
    + injection Hi as ->. rewrite Hx. simpl. by rewrite Hb.
    + destruct (Hbefore 0%nat x0) as (c & -> & Hc); [lia|done|].
      simpl. rewrite Hc. apply (IH i x b); try done.
      intros j y Hj Hy. apply (Hbefore (S j)); [lia|done].
Qed.

Lemma single_loop_none (fn : callback) (h : heap) (list_ : list value) :
  (forall x, In x list_ -> exists c, fn x h = Ok c /\ truthy c = false) ->
  Q.single_loop fn h list_ = Ok VUndefined.
Proof.
  induction list_ as [|x0 rest IH]; intros Hall; simpl.
  - done.
  - destruct (Hall x0) as (c & -> & Hc); [by left|].
    simpl. rewrite Hc. apply IH. intros x Hx. apply Hall. by right.
Qed.

(** C7: [Q.single] returns the element at the lowest index that satisfies
    the resolved predicate, and [undefined] when every element is rejected. *)
Theorem single_first_match (f : matcher) (list_ : list value) (h : heap) :
  (forall (i : nat) x,
     list_ !! i = Some x ->
     satisfies f h x ->
     (forall (j : nat) y, (j < i)%nat -> list_ !! j = Some y -> rejects f h y) ->
     Q.single f list_ h = Ok x) /\
  ((forall x, In x list_ -> rejects f h x) ->
   Q.single f list_ h = Ok VUndefined).
Proof.
  split.
  - intros i x Hi (b & Hx & Hb) Hbefore.
    by apply (single_loop_first (resolve_matcher f) h list_ i x b).
  - intros Hall. by apply (single_loop_none (resolve_matcher f) h list_).
Qed.

Lemma single_first_match_witness :
  Q.single (Spec (VRef 3)) [VRef 0; VRef 1; VRef 2] single_store = Ok (VRef 1) /\
  Q.single (Spec (VRef 4)) [VRef 0; VRef 1; VRef 2] single_store = Ok VUndefined.
Proof.
  split.
  - apply (proj1 (single_first_match (Spec (VRef 3))
                    [VRef 0; VRef 1; VRef 2] single_store) 1%nat (VRef 1)).
    + reflexivity.
    + exists (VBool true). split; evaluate.
    + intros [|[|j]] y Hj Hy; [|lia..]. injection Hy as <-.
      exists (VBool false). split; evaluate.
  - apply (proj2 (single_first_match (Spec (VRef 4))
                    [VRef 0; VRef 1; VRef 2] single_store)).
    intros x [<-|[<-|[<-|[]]]]; exists (VBool false);
      split; evaluate.
Defined.

(** ** [Q.mold] *)




(** ** [Q.filter] *)

Lemma filter_loop_spec (fn : callback) (h : heap) (list_ : list value) :
  (forall x, In x list_ -> exists b, fn x h = Ok b) ->
  forall res,
    Q.filter_loop fn h list_ res
    = Ok (res ++ List.filter (fun x => truthy (key_of fn h x)) list_).
Proof.
  induction list_ as [|x rest IH]; intros Htotal res; simpl.
  - by rewrite app_nil_r.
  - destruct (Htotal x) as [b Hb]; [by left|].
    rewrite Hb, (key_of_ok fn h x b Hb). simpl.
    rewrite IH by (intros; apply Htotal; by right).
    destruct (truthy b); [|done]. by rewrite <- app_assoc.
Qed.

(** [Q.filter] keeps, in their order, the elements the resolved predicate
    is truthy on; with a Spec that predicate is [Q.mold]'s. *)
Lemma filter_keeps_matching (f : matcher) (list_ : list value) (h : heap) :
  (forall x, In x list_ -> exists b, resolve_matcher f x h = Ok b) ->
  Q.filter f list_ h
  = Ok (List.filter (fun x => truthy (key_of (resolve_matcher f) h x)) list_).
Proof.
  intros Htotal.
  apply (filter_loop_spec (resolve_matcher f) h list_ Htotal []).
Qed.

(** ** [Q.mixin] *)

Lemma copy_entries_spec (h : heap) (obj : value) (m : record)
    (ks : list string) :
  fields_of h obj = Some m ->
  (forall k, k ∈ ks -> is_Some (m !! k)) ->
  forall res,
    exists res', Q.copy_entries h obj ks res = Ok res' /\
      forall k, res' !! k = if decide (k ∈ ks) then m !! k else res !! k.
Proof.
  intros Hm. induction ks as [|key ks IH]; intros Hks res; simpl.
  - exists res. split; [done|]. intros k.
    destruct (decide (k ∈ [])) as [Hk|]; [|done].
    by apply elem_of_nil in Hk.
  - rewrite (get_record h obj m key Hm). simpl.
    destruct (IH (fun k Hk => Hks k (list_elem_of_further _ _ _ Hk))
                (<[key := entry m key]> res)) as (res' & -> & Hres').
    exists res'. split; [done|]. intros k. rewrite Hres'.
    destruct (Hks key) as [v Hv]; [by left|].
    destruct (decide (k ∈ ks)) as [Hin|Hnin],
      (decide (k ∈ key :: ks)) as [Hin'|Hnin']; try done.
    + exfalso. apply Hnin'. by right.
    + apply elem_of_cons in Hin' as [->|Hin']; [|done].
      rewrite lookup_insert_eq. unfold entry. by rewrite Hv.
    + rewrite lookup_insert_ne; [done|]. intros ->. apply Hnin'. by left.
Qed.

Lemma mixin_records (left right : value) (l r : record) (h : heap) :
  fields_of h left = Some l ->
  fields_of h right = Some r ->
  exists res, Q.mixin left right h = Ok (VRef (length h), h ++ [res]) /\
    forall k, res !! k = merged l r k.
Proof.
  intros Hl Hr. unfold Q.mixin.
  rewrite (keys_record h left l Hl), (keys_record h right r Hr).
  destruct (copy_entries_spec h left l (map_to_list l).*1 Hl
              (fun k Hk => proj1 (key_of_record l k) Hk) ∅)
    as (res1 & -> & Hres1).
  simpl.
  destruct (copy_entries_spec h right r (map_to_list r).*1 Hr
              (fun k Hk => proj1 (key_of_record r k) Hk) res1)
    as (res2 & -> & Hres2).
  simpl. exists res2. split; [done|].
  intros k. rewrite Hres2, Hres1. unfold merged.
  destruct (decide (k ∈ (map_to_list r).*1)) as [Hk|Hk].
  - apply key_of_record in Hk as [v ->]. done.
  - rewrite key_of_record in Hk. apply eq_None_not_Some in Hk. rewrite Hk.
    destruct (decide (k ∈ (map_to_list l).*1)) as [Hk'|Hk']; [done|].
    rewrite key_of_record in Hk'. apply eq_None_not_Some in Hk'.
    rewrite Hk'. apply lookup_empty.
Qed.



Example mixin_example :
  Q.mixin (VRef 0) (VRef 1) mixin_store
  = Ok (VRef 2, mixin_store ++ [ {[ "a" := num 9; "b" := num 1 ]} ]).
Proof. evaluate. Qed.

(** ** [Q.amend] *)

Lemma amend_unfold (left right : list value) (lKey : string)
    (rKey : option string) :
  Q.amend left right lKey rKey =
  Q.map (amend_step right lKey (right_key lKey rKey)) left.
Proof.
  unfold Q.amend, right_key. destruct rKey as [k|]; [|done].
  simpl. by destruct (String.eqb k "").
Qed.

Lemma single_join_find (h : heap) (lKey rKey : string) (l : value)
    (right : list value) :
  is_record h l ->
  Forall (is_record h) right ->
  Q.single (Predicate (fun r h =>
      a ← get h l lKey;
      b ← get h r rKey;
      Ok (VBool (loose_eq a b)))) right h
  = Ok (default VUndefined (List.find (join_match h lKey rKey l) right)).
Proof.
  intros Hl Hright. unfold Q.single.
  induction Hright as [|r right Hr Hright IH]; simpl; [done|].
  rewrite (get_field_value h l lKey Hl), (get_field_value h r rKey Hr).
  simpl. unfold join_match at 1.
  by destruct (loose_eq (field_value h l lKey) (field_value h r rKey)).
Qed.







(** ** [Q.group] *)

Lemma group_unfold (f : key_specifier) (list_ : list value) (h : heap) :
  Q.group f list_ h = Q.reduce (group_step (resolve_key f) h) ∅ list_.
Proof. reflexivity. Qed.

Lemma bucket_of_cons (fn : callback) (h : heap) (k : string) (x : value)
    (rest : list value) :
  bucket_of fn h k (x :: rest)
  = if String.eqb (to_string (key_of fn h x)) k
    then x :: bucket_of fn h k rest
    else bucket_of fn h k rest.
Proof. reflexivity. Qed.

Lemma group_step_ok (fn : callback) (h : heap)
    (acc : gmap string (list value)) (elt key : value) :
  fn elt h = Ok key ->
  group_step fn h acc elt
  = Ok (<[to_string key := match acc !! to_string key with
                           | Some bucket => concat bucket elt
                           | None => [elt]
                           end]> acc).
Proof. intros Hkey. unfold group_step. by rewrite Hkey. Qed.

Lemma group_reduce_spec (fn : callback) (h : heap) (list_ : list value) :
  (forall x, In x list_ -> exists k, fn x h = Ok k) ->
  (forall x, In x list_ -> is_array x = false) ->
  forall acc0 : gmap string (list value),
    exists acc,
      Q.reduce (group_step fn h) acc0 list_ = Ok acc /\
      forall k, acc !! k = extended (acc0 !! k) (bucket_of fn h k list_).
Proof.
  induction list_ as [|x rest IH]; intros Htotal Hflat acc0.
  - exists acc0. done.
  - destruct (Htotal x) as [kx Hkx]; [by left|].
    cbn [Q.reduce]. rewrite (group_step_ok fn h acc0 x kx Hkx).
    cbn [mbind result_bind].
    assert (Hconcat : forall bucket, concat bucket x = bucket ++ [x]).
    { intros bucket. specialize (Hflat x (or_introl eq_refl)).
      by destruct x. }
    destruct (IH (fun y Hy => Htotal y (or_intror Hy))
                (fun y Hy => Hflat y (or_intror Hy))
                (<[to_string kx :=
                     match acc0 !! to_string kx with
                     | Some bucket => concat bucket x
                     | None => [x]
                     end]> acc0)) as (acc & -> & Hacc).
    exists acc. split; [done|]. intros k. rewrite Hacc.
    rewrite bucket_of_cons, (key_of_ok fn h x kx Hkx).
    destruct (String.eqb_spec (to_string kx) k) as [->|Hne].
    + rewrite lookup_insert_eq. unfold extended.
      destruct (acc0 !! k) as [bucket|]; simpl.
      * rewrite Hconcat.
        destruct (bucket_of fn h k rest); simpl; by rewrite <- ?app_assoc.
      * by destruct (bucket_of fn h k rest).
    + by rewrite lookup_insert_ne.
Qed.

(** When no element is itself an array, [Q.group] maps each stringified key
    to the elements that have it, in their order, and has no other key. *)
Lemma group_buckets_without_arrays (f : key_specifier) (list_ : list value)
    (h : heap) :
  (forall x, In x list_ -> exists k, resolve_key f x h = Ok k) ->
  (forall x, In x list_ -> is_array x = false) ->
  exists acc,
    Q.group f list_ h = Ok acc /\
    forall k, acc !! k = match bucket_of (resolve_key f) h k list_ with
                         | [] => None
                         | bucket => Some bucket
                         end.
Proof.
  intros Htotal Hflat.
  destruct (group_reduce_spec (resolve_key f) h list_ Htotal Hflat ∅)
    as (acc & Hrun & Hacc).
  exists acc. split; [by rewrite group_unfold|].
  intros k. rewrite Hacc, lookup_empty. unfold extended.
  by destruct (bucket_of (resolve_key f) h k list_).
Qed.

(** C6: [acc[key].concat(elt)] spreads an element that is an array: grouping
    [[1, 10]] and [[1, 20]] by their first member leaves the first pair whole
    (it went in as [[elt]]) and puts the members [1] and [20] of the second
    in the bucket, not the pair itself. *)
Theorem group_spreads_array_elements :
  Q.group (FieldName "0")
    [VArr 0 [num 1; num 10]; VArr 1 [num 1; num 20]] []
  = Ok {[ "1" := [VArr 0 [num 1; num 10]; num 1; num 20] ]} /\
  bucket_of (Q.field "0") [] "1"
    [VArr 0 [num 1; num 10]; VArr 1 [num 1; num 20]]
  = [VArr 0 [num 1; num 10]; VArr 1 [num 1; num 20]].
Proof. split; evaluate. Qed.

(** ** [Q.lay] *)







Example lay_examples :
  Q.lay 5 None None = [0; 1; 2; 3; 4] /\
  Q.lay 53 (Some 50) None = [50; 51; 52] /\
  Q.lay 4 (Some 8) (Some (-1)) = [8; 7; 6; 5] /\
  Q.lay 5 (Some 0) (Some 0) = [].
Proof. repeat split; evaluate. Qed.

(** ** [Q.sort] *)

Lemma js_lt_irrefl (a : value) : js_lt a a = false.
Proof.
  assert (Hnum : forall n, number_ltb n n = false).
  { intros [z|]; simpl; [apply Z.ltb_irrefl|done]. }
  assert (Hstr : forall s, String.ltb s s = false).
  { intros s. unfold String.ltb.
    pose proof (String.compare_antisym s s) as Hs.
    by destruct (String.compare s s). }
  unfold js_lt. destruct (to_primitive a); auto.
Qed.

Lemma compareKeys_positive (a b : keyed) :
  (0 <? Q._compareKeys a b) = true <->
  js_lt (key a) (key b) = false /\ js_lt (key b) (key a) = true.
Proof.
  unfold Q._compareKeys, js_gt.
  destruct (js_lt (key a) (key b)), (js_lt (key b) (key a)); simpl;
    split; try done; intros [? ?]; done.
Qed.

Lemma keyValue_spec (fn : callback) (list_ : list value) (h : heap) :
  (forall x, In x list_ -> exists k, fn x h = Ok k) ->
  Q._keyValue fn list_ h = Ok (List.map (decorate fn h) list_, h).
Proof.
  unfold Q._keyValue, Q.map. generalize 0%nat.
  induction list_ as [|x rest IH]; intros i Htotal; [done|].
  destruct (Htotal x) as [k Hk]; [by left|].
  cbn [Q.map_loop List.map]. rewrite Hk. cbn [mbind result_bind].
  rewrite IH by (intros; apply Htotal; by right).
  cbn [mbind result_bind]. unfold decorate.
  by rewrite (key_of_ok fn h x k Hk).
Qed.

Lemma pluck_val_spec (list_ : list keyed) (h : heap) :
  Q.pluck_val list_ h = Ok (List.map val list_, h).
Proof.
  unfold Q.pluck_val, Q.map. generalize 0%nat.
  induction list_ as [|d rest IH]; intros i; simpl; [done|].
  by rewrite IH.
Qed.

Lemma sort_unfold (f : key_specifier) (list_ : list value) (h : heap) :
  (forall x, In x list_ -> exists k, sort_key f x h = Ok k) ->
  Q.sort f list_ h
  = Ok (List.map val
          (array_sort Q._compareKeys
             (List.map (decorate (sort_key f) h) list_)), h).
Proof.
  intros Htotal. unfold Q.sort. fold (sort_key f).
  rewrite (keyValue_spec (sort_key f) list_ h Htotal). simpl.
  apply pluck_val_spec.
Qed.

(** *** The insertion sort of the host *)

Lemma insert_rev_permutation {A} (comparefn : A -> A -> Z) (element : A)
    (rprefix : list A) :
  Permutation (element :: rprefix) (insert_rev comparefn element rprefix).
Proof.
  induction rprefix as [|tmp rest IH]; simpl; [done|].
  destruct (0 <? comparefn tmp element); [|done].
  rewrite <- IH. apply perm_swap.
Qed.

Lemma array_sort_permutation {A} (comparefn : A -> A -> Z) (a : list A) :
  Permutation a (array_sort comparefn a).
Proof.
  unfold array_sort. rewrite <- Permutation_rev.
  assert (Hfold : forall rprefix,
             Permutation (rev a ++ rprefix)
               (fold_left (fun rprefix element =>
                             insert_rev comparefn element rprefix) a rprefix)).
  { induction a as [|x a IH]; intros rprefix; simpl; [done|].
    rewrite <- IH, <- app_assoc. simpl.
    apply Permutation_app_head. apply insert_rev_permutation. }
  rewrite <- Hfold, app_nil_r. apply Permutation_rev.
Qed.

Section insertion_by_key.

(** The keys that are compared. *)
Variable ks : list value.
Hypothesis ordered : keys_ordered ks.

Let keyed_in (d : keyed) : Prop := In (key d) ks.

(** No key of an earlier pair is above the key of a later one; the list is
    the sorted prefix reversed, so the later pair comes first. *)
Let later_first (later earlier : keyed) : Prop :=
  js_lt (key later) (key earlier) = false.

Lemma insert_rev_sorted (element : keyed) (rprefix : list keyed) :
  keyed_in element ->
  Forall keyed_in rprefix ->
  StronglySorted later_first rprefix ->
  StronglySorted later_first (insert_rev Q._compareKeys element rprefix).
Proof.
  destruct ordered as [Htrans Hneg].
  intros He Hin Hsorted.
  induction Hsorted as [|tmp rest Hrest IH Htmp]; simpl.
  - repeat constructor.
  - apply Forall_cons in Hin as [Htmp_in Hrest_in].
    destruct (0 <? Q._compareKeys tmp element) eqn:Hcmp.
    + apply compareKeys_positive in Hcmp as [Hte Het].
      constructor; [by apply IH|].
      rewrite <- (insert_rev_permutation Q._compareKeys element rest).
      by constructor.
    + assert (Het : js_lt (key element) (key tmp) = false).
      { destruct (js_lt (key element) (key tmp)) eqn:Het; [|done].
        destruct (js_lt (key tmp) (key element)) eqn:Hte.
        - rewrite <- (js_lt_irrefl (key tmp)). symmetry.
          by apply (Htrans _ (key element)).
        - assert ((0 <? Q._compareKeys tmp element) = true)
            by (by apply compareKeys_positive).
          congruence. }
      constructor; [by constructor|].
      constructor; [done|].
      rewrite Forall_forall in Htmp, Hrest_in |- *.
      intros y Hy. apply (Hneg _ (key tmp)); auto.
      * by apply Hrest_in.
      * by apply Htmp.
Qed.

Lemma insert_rev_keyed_in (element : keyed) (rprefix : list keyed) :
  keyed_in element ->
  Forall keyed_in rprefix ->
  Forall keyed_in (insert_rev Q._compareKeys element rprefix).
Proof.
  intros He Hin.
  rewrite <- (insert_rev_permutation Q._compareKeys element rprefix).
  by constructor.
Qed.

Lemma array_sort_sorted (a : list keyed) :
  Forall keyed_in a ->
  StronglySorted (fun x y => js_lt (key y) (key x) = false)
    (array_sort Q._compareKeys a).
Proof.
  intros Ha. unfold array_sort.
  assert (Hfold : forall rprefix,
             Forall keyed_in rprefix ->
             StronglySorted later_first rprefix ->
             StronglySorted later_first
               (fold_left (fun rprefix element =>
                             insert_rev Q._compareKeys element rprefix)
                  a rprefix)).
  { induction Ha as [|x a Hx Ha IH]; intros rprefix Hin Hsorted; simpl;
      [done|].
    apply IH; [by apply insert_rev_keyed_in|by apply insert_rev_sorted]. }
  specialize (Hfold [] (List.Forall_nil _) (SSorted_nil _)).
  induction Hfold as [|x l Hl IH Hx]; simpl; [constructor|].
  apply StronglySorted_app_2; [|done|repeat constructor].
  intros x1 x2 Hx1 Hx2. apply list_elem_of_singleton in Hx2 as ->.
  rewrite Forall_forall in Hx. apply Hx.
  apply list_elem_of_In, in_rev. by apply list_elem_of_In.
Qed.



End insertion_by_key.

(** *** Decorate, sort, undecorate *)

Lemma decorated_sorted (fn : callback) (h : heap) (l : list keyed) :
  Forall (decorated fn h) l ->
  StronglySorted (fun x y => js_lt (key y) (key x) = false) l ->
  StronglySorted (fun x y => js_lt (key_of fn h y) (key_of fn h x) = false)
    (List.map val l).
Proof.
  intros Hdec Hsorted.
  induction Hsorted as [|d l Hl IH Hd]; simpl; [constructor|].
  apply Forall_cons in Hdec as [Hd_dec Hl_dec].
  constructor; [by apply IH|].
  apply Forall_map. rewrite Forall_forall in Hd, Hl_dec |- *.
  intros d' Hd'. rewrite <- Hd_dec, <- (Hl_dec d' Hd'). by apply Hd.
Qed.


Lemma decorate_decorated (fn : callback) (h : heap) (list_ : list value) :
  Forall (decorated fn h) (List.map (decorate fn h) list_).
Proof. apply Forall_map, Forall_forall. intros x _. reflexivity. Qed.

Lemma undecorate (fn : callback) (h : heap) (list_ : list value) :
  List.map val (List.map (decorate fn h) list_) = list_.
Proof. rewrite List.map_map. simpl. apply List.map_id. Qed.

Lemma sort_run (f : key_specifier) (list_ : list value) (h : heap) :
  (forall x, In x list_ -> exists k, sort_key f x h = Ok k) ->
  Q.sort f list_ h = Ok (sorted_values (sort_key f) h list_, h).
Proof. apply sort_unfold. Qed.

Lemma sorted_values_decorated (fn : callback) (h : heap)
    (list_ : list value) :
  Forall (decorated fn h)
    (array_sort Q._compareKeys (List.map (decorate fn h) list_)).
Proof.
  rewrite <- (array_sort_permutation Q._compareKeys).
  apply decorate_decorated.
Qed.

Lemma decorate_keyed_in (fn : callback) (h : heap) (list_ : list value) :
  Forall (fun d => In (key d) (List.map (key_of fn h) list_))
    (List.map (decorate fn h) list_).
Proof.
  apply Forall_map, Forall_forall. intros x Hx. simpl.
  apply in_map. by apply list_elem_of_In.
Qed.

Lemma sorted_values_permutation (fn : callback) (h : heap)
    (list_ : list value) :
  Permutation list_ (sorted_values fn h list_).
Proof.
  unfold sorted_values. rewrite <- (undecorate fn h list_) at 1.
  apply Permutation_map, array_sort_permutation.
Qed.

Lemma sorted_values_ascending (fn : callback) (h : heap)
    (list_ : list value) :
  keys_ordered (List.map (key_of fn h) list_) ->
  StronglySorted (fun x y => js_lt (key_of fn h y) (key_of fn h x) = false)
    (sorted_values fn h list_).
Proof.
  intros Hordered. unfold sorted_values.
  apply decorated_sorted; [apply sorted_values_decorated|].
  apply (array_sort_sorted (List.map (key_of fn h) list_) Hordered).
  apply decorate_keyed_in.
Qed.


(** Keys that are numbers other than [NaN] are ordered. *)
Lemma finite_keys_ordered (ks : list value) :
  (forall k, In k ks -> exists z, k = num z) -> keys_ordered ks.
Proof.
  intros Hnum. split; intros a b c Ha Hb Hc;
    destruct (Hnum a Ha) as [x ->], (Hnum b Hb) as [y ->],
      (Hnum c Hc) as [z ->]; unfold js_lt; simpl; lia.
Qed.

(** Keys that are strings are ordered. *)
Lemma string_keys_ordered (ks : list value) :
  (forall k, In k ks -> exists s, k = VStr s) -> keys_ordered ks.
Proof.
  assert (Hltb : forall s t, String.ltb s t = true <-> String_as_OT.lt s t).
  { intros s t. unfold String.ltb. rewrite <- String_as_OT.cmp_lt.
    unfold String_as_OT.cmp. destruct (String.compare s t); split; done. }
  intros Hstr. split; intros a b c Ha Hb Hc;
    destruct (Hstr a Ha) as [s ->], (Hstr b Hb) as [t ->],
      (Hstr c Hc) as [u ->]; unfold js_lt; simpl.
  - rewrite !Hltb. apply String_as_OT.lt_trans.
  - intros Hst Htu. apply not_true_is_false. rewrite Hltb. intros Hsu.
    destruct (String.compare s t) eqn:Hcmp.
    + apply String_as_OT.cmp_eq in Hcmp as ->.
      apply Hltb in Hsu. congruence.
    + unfold String.ltb in Hst. by rewrite Hcmp in Hst.
    + assert (Hts : String_as_OT.lt t s).
      { apply String_as_OT.cmp_lt. unfold String_as_OT.cmp.
        by rewrite String.compare_antisym, Hcmp. }
      pose proof (String_as_OT.lt_trans _ _ _ Hts Hsu) as Htu'.
      apply Hltb in Htu'. congruence.
Qed.





Example sort_example :
  Q.sort (FieldName "age") [VRef 0; VRef 1; VRef 2; VRef 3] sort_store
  = Ok ([VRef 1; VRef 3; VRef 0; VRef 2], sort_store) /\
  Q.sort (FieldName "-age") [VRef 0; VRef 1; VRef 2; VRef 3] sort_store
  = Ok ([VRef 0; VRef 2; VRef 3; VRef 1], sort_store).
Proof. split; evaluate. Qed.

(** *** The descending marker *)





(** * Further properties *)

(** ** [Q.min] and [Q.max]: which element *)

Lemma min_loop_keeps (fn : callback) (h : heap) (x kx : value)
    (post : list value) :
  (forall y, In y post -> exists k, fn y h = Ok k) ->
  (forall y, In y post -> js_lt (key_of fn h y) kx = false) ->
  Q.min_loop fn h post x kx = Ok x.
Proof.
  induction post as [|y post IH]; intros Htotal Hpost; simpl; [done|].
  destruct (Htotal y) as [k Hk]; [by left|]. rewrite Hk. simpl.
  rewrite <- (key_of_ok fn h y k Hk), Hpost by (by left).
  apply IH; intros; [apply Htotal|apply Hpost]; by right.
Qed.

Lemma min_loop_first_least (fn : callback) (h : heap) (x : value)
    (pre post : list value) :
  (forall y, In y (pre ++ x :: post) -> exists k, fn y h = Ok k) ->
  (forall y, In y pre -> js_lt (key_of fn h x) (key_of fn h y) = true) ->
  (forall y, In y post -> js_lt (key_of fn h y) (key_of fn h x) = false) ->
  forall item res,
    js_lt (key_of fn h x) res = true \/ (item = x /\ res = key_of fn h x) ->
    Q.min_loop fn h (pre ++ x :: post) item res = Ok x.
Proof.
  intros Htotal Hpre Hpost.
  induction pre as [|p pre IH]; intros item res Hstate; simpl.
  - destruct (Htotal x) as [k Hk]; [by left|]. rewrite Hk. simpl.
    rewrite (key_of_ok fn h x k Hk) in Hstate, Hpost.
    assert (Hkeep : Q.min_loop fn h post x k = Ok x).
    { apply min_loop_keeps; [|done].
      intros y Hy. apply Htotal. by right. }
    destruct (js_lt k res) eqn:Hlt; [done|].
    destruct Hstate as [Hstate|[-> ->]]; [congruence|done].
  - destruct (Htotal p) as [k Hk]; [by left|]. rewrite Hk. simpl.
    assert (Hrest : forall y, In y (pre ++ x :: post) -> exists k, fn y h = Ok k)
      by (intros y Hy; apply Htotal; by right).
    assert (Hpre' : forall y, In y pre ->
              js_lt (key_of fn h x) (key_of fn h y) = true)
      by (intros y Hy; apply Hpre; by right).
    destruct (js_lt k res).
    + apply IH; try done. left.
      rewrite <- (key_of_ok fn h p k Hk). apply Hpre. by left.
    + apply IH; try done.
Qed.

Lemma max_loop_keeps (fn : callback) (h : heap) (x kx : value)
    (post : list value) :
  (forall y, In y post -> exists k, fn y h = Ok k) ->
  (forall y, In y post -> js_gt (key_of fn h y) kx = false) ->
  Q.max_loop fn h post x kx = Ok x.
Proof.
  induction post as [|y post IH]; intros Htotal Hpost; simpl; [done|].
  destruct (Htotal y) as [k Hk]; [by left|]. rewrite Hk. simpl.
  rewrite <- (key_of_ok fn h y k Hk), Hpost by (by left).
  apply IH; intros; [apply Htotal|apply Hpost]; by right.
Qed.

Lemma max_loop_first_greatest (fn : callback) (h : heap) (x : value)
    (pre post : list value) :
  (forall y, In y (pre ++ x :: post) -> exists k, fn y h = Ok k) ->
  (forall y, In y pre -> js_gt (key_of fn h x) (key_of fn h y) = true) ->
  (forall y, In y post -> js_gt (key_of fn h y) (key_of fn h x) = false) ->
  forall item res,
    js_gt (key_of fn h x) res = true \/ (item = x /\ res = key_of fn h x) ->
    Q.max_loop fn h (pre ++ x :: post) item res = Ok x.
Proof.
  intros Htotal Hpre Hpost.
  induction pre as [|p pre IH]; intros item res Hstate; simpl.
  - destruct (Htotal x) as [k Hk]; [by left|]. rewrite Hk. simpl.
    rewrite (key_of_ok fn h x k Hk) in Hstate, Hpost.
    assert (Hkeep : Q.max_loop fn h post x k = Ok x).
    { apply max_loop_keeps; [|done].
      intros y Hy. apply Htotal. by right. }
    destruct (js_gt k res) eqn:Hgt; [done|].
    destruct Hstate as [Hstate|[-> ->]]; [congruence|done].
  - destruct (Htotal p) as [k Hk]; [by left|]. rewrite Hk. simpl.
    assert (Hrest : forall y, In y (pre ++ x :: post) -> exists k, fn y h = Ok k)
      by (intros y Hy; apply Htotal; by right).
    assert (Hpre' : forall y, In y pre ->
              js_gt (key_of fn h x) (key_of fn h y) = true)
      by (intros y Hy; apply Hpre; by right).
    destruct (js_gt k res).
    + apply IH; try done. left.
      rewrite <- (key_of_ok fn h p k Hk). apply Hpre. by left.
    + apply IH; try done.
Qed.

Lemma min_unfold (f : key_specifier) (x0 : value) (rest : list value)
    (h : heap) (k0 : value) :
  resolve_key f x0 h = Ok k0 ->
  Q.min f (x0 :: rest) h = Q.min_loop (resolve_key f) h (x0 :: rest) x0 k0.
Proof.
  intros Hk0. unfold Q.min, at_index.
  cbn [lookup list_lookup default from_option id].
  change (match f with KeyFn f0 => f0 | FieldName f0 => Q.field f0 end)
    with (resolve_key f).
  by rewrite Hk0.
Qed.

Lemma max_unfold (f : key_specifier) (x0 : value) (rest : list value)
    (h : heap) (k0 : value) :
  resolve_key f x0 h = Ok k0 ->
  Q.max f (x0 :: rest) h = Q.max_loop (resolve_key f) h (x0 :: rest) x0 k0.
Proof.
  intros Hk0. unfold Q.max, at_index.
  cbn [lookup list_lookup default from_option id].
  change (match f with KeyFn f0 => f0 | FieldName f0 => Q.field f0 end)
    with (resolve_key f).
  by rewrite Hk0.
Qed.





Lemma incomparable_lt (k v : value) :
  incomparable k -> js_lt v k = false /\ js_lt k v = false.
Proof.
  assert (Hnan : forall n, number_ltb n NaN = false) by (by intros [z|]).
  intros [->| ->]; split; unfold js_lt; simpl;
    destruct (to_primitive v); simpl; try done; apply Hnan.
Qed.

(** X3: when the key of the first element is [NaN] or [undefined], no key
    compares below or above the seed [res = fn(list[0])], and [Q.min] and
    [Q.max] both return the first element, whatever the keys of the others
    are. *)
Theorem min_max_incomparable_seed (f : key_specifier) (x : value)
    (rest : list value) (h : heap) :
  (forall y, In y (x :: rest) -> exists k, resolve_key f y h = Ok k) ->
  incomparable (key_of (resolve_key f) h x) ->
  Q.min f (x :: rest) h = Ok x /\ Q.max f (x :: rest) h = Ok x.
Proof.
  intros Htotal Hseed.
  destruct (Htotal x) as [k Hk]; [by left|].
  rewrite (min_unfold f x rest h k Hk), (max_unfold f x rest h k Hk).
  split.
  - apply (min_loop_first_least (resolve_key f) h x [] rest); try done.
    + intros y _. exact (proj1 (incomparable_lt _ _ Hseed)).
    + right. by rewrite (key_of_ok _ _ _ _ Hk).
  - apply (max_loop_first_greatest (resolve_key f) h x [] rest); try done.
    + intros y _. exact (proj2 (incomparable_lt _ _ Hseed)).
    + right. by rewrite (key_of_ok _ _ _ _ Hk).
Qed.

Lemma min_max_incomparable_seed_witness :
  Q.min (FieldName "age") [VRef 1; VRef 0; VRef 2] ages_store = Ok (VRef 1) /\
  Q.max (FieldName "age") [VRef 1; VRef 0; VRef 2] ages_store = Ok (VRef 1).
Proof.
  apply (min_max_incomparable_seed (FieldName "age") (VRef 1)
           [VRef 0; VRef 2] ages_store).
  - intros y [<-|[<-|[<-|[]]]]; eexists; evaluate.
  - right. evaluate.
Defined.

(** ** [Q.filter] and [Q.single] together *)

Lemma holds_satisfies (f : matcher) (h : heap) (x : value) :
  (exists b, resolve_matcher f x h = Ok b) ->
  holds f h x = true <-> satisfies f h x.
Proof.
  intros [b Hb]. unfold holds, satisfies.
  rewrite (key_of_ok _ _ _ _ Hb), Hb. split.
  - intros Htrue. by exists b.
  - intros (b' & [= <-] & Htrue). done.
Qed.

(** X4: when the predicate returns on every element, [Q.filter] returns
    exactly the elements it is truthy on, in their original order: no more
    elements than the input has, each of them in the input and satisfying
    the predicate. *)
Theorem filter_matching_in_order (f : matcher) (list_ : list value)
    (h : heap) :
  (forall x, In x list_ -> exists b, resolve_matcher f x h = Ok b) ->
  exists out,
    Q.filter f list_ h = Ok out /\
    out = List.filter (holds f h) list_ /\
    (length out <= length list_)%nat /\
    forall x, In x out <-> In x list_ /\ satisfies f h x.
Proof.
  intros Htotal. exists (List.filter (holds f h) list_).
  split; [|split; [done|split]].
  - apply (filter_loop_spec (resolve_matcher f) h list_ Htotal []).
  - apply List.filter_length_le.
  - intros x. rewrite filter_In. split.
    + intros [Hx Hholds]. split; [done|].
      by apply holds_satisfies; [apply Htotal|].
    + intros [Hx Hsat]. split; [done|].
      by apply holds_satisfies; [apply Htotal|].
Qed.

Lemma filter_matching_in_order_witness :
  exists out,
    Q.filter (Spec (VRef 3)) [VRef 0; VRef 1; VRef 2; VRef 3] single_store
    = Ok out /\
    out = List.filter (holds (Spec (VRef 3)) single_store)
            [VRef 0; VRef 1; VRef 2; VRef 3] /\
    (length out <= length [VRef 0; VRef 1; VRef 2; VRef 3])%nat /\
    forall x, In x out <->
      In x [VRef 0; VRef 1; VRef 2; VRef 3] /\
      satisfies (Spec (VRef 3)) single_store x.
Proof.
  apply (filter_matching_in_order (Spec (VRef 3))
           [VRef 0; VRef 1; VRef 2; VRef 3] single_store).
  intros x [<-|[<-|[<-|[<-|[]]]]]; eexists; evaluate.
Defined.

Lemma single_loop_find (fn : callback) (h : heap) (list_ : list value) :
  (forall x, In x list_ -> exists b, fn x h = Ok b) ->
  Q.single_loop fn h list_
  = Ok (default VUndefined
          (List.find (fun x => truthy (key_of fn h x)) list_)).
Proof.
  induction list_ as [|x rest IH]; intros Htotal; simpl; [done|].
  destruct (Htotal x) as [b Hb]; [by left|].
  rewrite Hb, (key_of_ok fn h x b Hb). simpl.
  destruct (truthy b); [done|]. apply IH. intros; apply Htotal; by right.
Qed.

Lemma find_head_filter {A} (p : A -> bool) (l : list A) :
  List.find p l = head (List.filter p l).
Proof.
  induction l as [|x l IH]; simpl; [done|]. by destruct (p x).
Qed.

(** X5: when the predicate returns on every element, [Q.single] returns the
    first element of what [Q.filter] returns, and [undefined] when
    [Q.filter] returns the empty sequence. *)
Theorem single_is_first_of_filter (f : matcher) (list_ : list value)
    (h : heap) :
  (forall x, In x list_ -> exists b, resolve_matcher f x h = Ok b) ->
  exists out,
    Q.filter f list_ h = Ok out /\
    Q.single f list_ h = Ok (default VUndefined (head out)).
Proof.
  intros Htotal. exists (List.filter (holds f h) list_). split.
  - apply (filter_loop_spec (resolve_matcher f) h list_ Htotal []).
  - unfold Q.single. fold (resolve_matcher f).
    rewrite (single_loop_find (resolve_matcher f) h list_ Htotal).
    by rewrite find_head_filter.
Qed.

Lemma single_is_first_of_filter_witness :
  exists out,
    Q.filter (Spec (VRef 3)) [VRef 0; VRef 1; VRef 2; VRef 3] single_store
    = Ok out /\
    Q.single (Spec (VRef 3)) [VRef 0; VRef 1; VRef 2; VRef 3] single_store
    = Ok (default VUndefined (head out)).
Proof.
  apply (single_is_first_of_filter (Spec (VRef 3))
           [VRef 0; VRef 1; VRef 2; VRef 3] single_store).
  intros x [<-|[<-|[<-|[<-|[]]]]]; eexists; evaluate.
Defined.

Lemma filter_loop_throws (fn : callback) (h : heap) (before : list value)
    (y : value) (post : list value) (e : error) :
  (forall z, In z before -> exists b, fn z h = Ok b) ->
  fn y h = Throw e ->
  forall res, Q.filter_loop fn h (before ++ y :: post) res = Throw e.
Proof.
  intros Htotal Hthrow.
  induction before as [|z before IH]; intros res; simpl.
  - by rewrite Hthrow.
  - destruct (Htotal z) as [b ->]; [by left|]. simpl.
    apply IH. intros; apply Htotal; by right.
Qed.

Lemma single_loop_stops (fn : callback) (h : heap) (pre : list value)
    (x : value) (post : list value) :
  (forall z, In z pre -> exists b, fn z h = Ok b /\ truthy b = false) ->
  (exists b, fn x h = Ok b /\ truthy b = true) ->
  Q.single_loop fn h (pre ++ x :: post) = Ok x.
Proof.
  intros Hpre (b & Hb & Htrue).
  induction pre as [|z pre IH]; simpl.
  - by rewrite Hb; simpl; rewrite Htrue.
  - destruct (Hpre z) as (c & -> & Hfalse); [by left|]. simpl.
    rewrite Hfalse. apply IH. intros; apply Hpre; by right.
Qed.

(** X6: [Q.single] stops at the first match and does not call the predicate
    on what follows, so a later element the predicate throws on does no
    harm; [Q.filter] scans the whole sequence and propagates the
    exception. *)
Theorem single_stops_where_filter_throws (f : matcher)
    (pre mid post : list value) (x y : value) (h : heap) (e : error) :
  (forall z, In z pre -> rejects f h z) ->
  satisfies f h x ->
  (forall z, In z mid -> exists b, resolve_matcher f z h = Ok b) ->
  resolve_matcher f y h = Throw e ->
  Q.single f (pre ++ x :: mid ++ y :: post) h = Ok x /\
  Q.filter f (pre ++ x :: mid ++ y :: post) h = Throw e.
Proof.
  intros Hpre Hx Hmid Hy. split.
  - by apply (single_loop_stops (resolve_matcher f) h pre x).
  - unfold Q.filter. fold (resolve_matcher f).
    replace (pre ++ x :: mid ++ y :: post)
      with ((pre ++ x :: mid) ++ y :: post)
      by (by rewrite <- app_assoc).
    apply filter_loop_throws; [|done].
    intros z Hz. apply in_app_or in Hz as [Hz|[<-|Hz]].
    + destruct (Hpre z Hz) as (b & Hb & _). eauto.
    + destruct Hx as (b & Hb & _). eauto.
    + by apply Hmid.
Qed.

Lemma single_stops_where_filter_throws_witness :
  Q.single (Spec (VRef 3)) [VRef 0; VRef 1; VRef 2; VUndefined] single_store
  = Ok (VRef 1) /\
  Q.filter (Spec (VRef 3)) [VRef 0; VRef 1; VRef 2; VUndefined] single_store
  = Throw TypeError.
Proof.
  apply (single_stops_where_filter_throws (Spec (VRef 3)) [VRef 0]
           [VRef 2] [] (VRef 1) VUndefined single_store TypeError).
  - intros z [<-|[]]. exists (VBool false). split; evaluate.
  - exists (VBool true). split; evaluate.
  - intros z [<-|[]]. eexists; evaluate.
  - evaluate.
Defined.

(** ** [Q.mold] at the edges *)

Lemma mold_keyless (spec obj : value) (h : heap) :
  keys h spec = [] -> Q.mold spec obj h = Ok (VBool true).
Proof. intros Hkeys. unfold Q.mold. by rewrite Hkeys. Qed.

(** X7: a Spec that [for (key in spec)] finds no key in ([undefined],
    [null], a number, a boolean, the empty record) matches every value,
    [undefined] and [null] included, without reading it: [Q.filter] returns
    the whole sequence and [Q.single] its first element. *)
Theorem keyless_spec_matches_all (spec : value) (list_ : list value)
    (h : heap) :
  keys h spec = [] ->
  Q.filter (Spec spec) list_ h = Ok list_ /\
  forall x, Q.single (Spec spec) (x :: list_) h = Ok x.
Proof.
  intros Hkeys. split.
  - assert (Htotal : forall x, In x list_ ->
              exists b, resolve_matcher (Spec spec) x h = Ok b).
    { intros x _. exists (VBool true). by apply mold_keyless. }
    unfold Q.filter. fold (resolve_matcher (Spec spec)).
    rewrite (filter_loop_spec _ h list_ Htotal []). simpl. f_equal.
    apply forallb_filter_id, forallb_forall. intros x _.
    unfold key_of. simpl. by rewrite (mold_keyless spec x h Hkeys).
  - intros x. unfold Q.single. simpl.
    by rewrite (mold_keyless spec x h Hkeys).
Qed.

Lemma keyless_spec_matches_all_witness :
  Q.filter (Spec VNull) [VUndefined; VRef 0] single_store
  = Ok [VUndefined; VRef 0] /\
  forall x, Q.single (Spec VNull) (x :: [VUndefined; VRef 0]) single_store
            = Ok x.
Proof.
  apply (keyless_spec_matches_all VNull [VUndefined; VRef 0] single_store).
  reflexivity.
Defined.

(** X8: the predicate of a Spec that has a key throws a [TypeError] on
    [undefined] and on [null]: it reads [obj[key]] for the first key. *)
Theorem mold_throws_on_undefined_or_null (spec obj : value) (s : record)
    (h : heap) :
  fields_of h spec = Some s ->
  s <> ∅ ->
  obj = VUndefined \/ obj = VNull ->
  Q.mold spec obj h = Throw TypeError.
Proof.
  intros Hs Hne Hobj. unfold Q.mold. rewrite (keys_record h spec s Hs).
  destruct (map_to_list s) as [|[k v] rest] eqn:Hlist.
  - by apply map_to_list_empty_iff in Hlist.
  - simpl. rewrite (get_record h spec s k Hs). simpl.
    by destruct Hobj as [-> | ->].
Qed.

Lemma mold_throws_on_undefined_or_null_witness :
  Q.mold (VRef 0) VUndefined mold_store = Throw TypeError.
Proof.
  apply (mold_throws_on_undefined_or_null (VRef 0) VUndefined
           {[ "a" := num 1 ]} mold_store).
  - reflexivity.
  - intros Hempty. apply (f_equal (fun m : record => m !! "a")) in Hempty.
    vm_compute in Hempty. discriminate.
  - by left.
Defined.

(** ** [Q.pluck] *)




(** ** [Q.map] *)

Lemma read_only_ok {A B} (g : A -> nat -> heap -> result B) (x : A) (i : nat)
    (h : heap) (y : B) :
  g x i h = Ok y -> read_only g x i h = Ok (y, h).
Proof. intros Hy. unfold read_only. by rewrite Hy. Qed.

Lemma read_only_throw {A B} (g : A -> nat -> heap -> result B) (x : A)
    (i : nat) (h : heap) (e : error) :
  g x i h = Throw e -> read_only g x i h = Throw e.
Proof. intros Hy. unfold read_only. by rewrite Hy. Qed.

Lemma map_loop_read_only {A B} (g : A -> nat -> heap -> result B)
    (list_ : list A) (h : heap) :
  forall n : nat,
    (forall (i : nat) x, list_ !! i = Some x ->
       exists y, g x (n + i)%nat h = Ok y) ->
    exists out,
      Q.map_loop (read_only g) list_ n h = Ok (out, h) /\
      length out = length list_ /\
      forall (i : nat) x, list_ !! i = Some x ->
        exists y, g x (n + i)%nat h = Ok y /\ out !! i = Some y.
Proof.
  induction list_ as [|x rest IH]; intros n Htotal.
  - exists []. split; [done|]. split; [done|]. intros i x Hi. done.
  - destruct (Htotal 0%nat x eq_refl) as [y Hy].
    destruct (IH (S n)) as (out & Hrun & Hlen & Hout).
    { intros i z Hi. rewrite Nat.add_succ_comm. by apply (Htotal (S i)). }
    exists (y :: out). cbn [Q.map_loop].
    rewrite Nat.add_0_r in Hy. rewrite (read_only_ok g x n h y Hy).
    cbn [mbind result_bind]. rewrite Hrun. cbn [mbind result_bind].
    split; [done|]. split; [simpl; by rewrite Hlen|].
    intros [|i] z Hi.
    + injection Hi as <-. exists y. by rewrite Nat.add_0_r.
    + destruct (Hout i z Hi) as (y' & Hy' & Hi').
      exists y'. by rewrite <- Nat.add_succ_comm.
Qed.

(** X10: with a callback that returns on every element, [Q.map] returns a
    sequence as long as the input whose [i]-th element is [f(list[i], i)]:
    the callback gets the element and its index, and the result is aligned
    with the input. *)
Theorem map_applies_in_place {A B} (g : A -> nat -> heap -> result B)
    (list_ : list A) (h : heap) :
  (forall (i : nat) x, list_ !! i = Some x -> exists y, g x i h = Ok y) ->
  exists out,
    Q.map (read_only g) list_ h = Ok (out, h) /\
    length out = length list_ /\
    forall (i : nat) x, list_ !! i = Some x ->
      exists y, g x i h = Ok y /\ out !! i = Some y.
Proof.
  intros Htotal.
  apply (map_loop_read_only g list_ h 0%nat Htotal).
Qed.

Lemma map_applies_in_place_witness :
  exists out,
    Q.map (read_only (fun (x : Z) (i : nat) (_ : heap) =>
                        Ok (x + Z.of_nat i))) [10; 20; 30] []
    = Ok (out, []) /\
    length out = length [10; 20; 30] /\
    forall (i : nat) x, [10; 20; 30] !! i = Some x ->
      exists y, Ok (x + Z.of_nat i) = Ok y /\ out !! i = Some y.
Proof.
  apply (map_applies_in_place
           (fun (x : Z) (i : nat) (_ : heap) => Ok (x + Z.of_nat i))
           [10; 20; 30] []).
  intros i x _. eexists. reflexivity.
Defined.

Lemma map_loop_throws {A B} (g : A -> nat -> heap -> result B)
    (pre post : list A) (x : A) (h : heap) (e : error) :
  forall n : nat,
    (forall (i : nat) y, pre !! i = Some y ->
       exists z, g y (n + i)%nat h = Ok z) ->
    g x (n + length pre)%nat h = Throw e ->
    Q.map_loop (read_only g) (pre ++ x :: post) n h = Throw e.
Proof.
  induction pre as [|y pre IH]; intros n Hpre Hx.
  - cbn [app Q.map_loop].
    rewrite Nat.add_0_r in Hx. by rewrite (read_only_throw g x n h e Hx).
  - destruct (Hpre 0%nat y eq_refl) as [z Hz]. rewrite Nat.add_0_r in Hz.
    cbn [app Q.map_loop]. rewrite (read_only_ok g y n h z Hz).
    cbn [mbind result_bind]. rewrite (IH (S n)); [done| |].
    + intros i y' Hi. rewrite Nat.add_succ_comm. by apply (Hpre (S i)).
    + by rewrite Nat.add_succ_comm.
Qed.

(** X11: [Q.map] stops at the first element its callback throws on and
    propagates the exception: the elements mapped so far are lost and the
    callback is not called on the rest. *)
Theorem map_stops_at_first_throw {A B} (g : A -> nat -> heap -> result B)
    (pre post : list A) (x : A) (h : heap) (e : error) :
  (forall (i : nat) y, pre !! i = Some y -> exists z, g y i h = Ok z) ->
  g x (length pre) h = Throw e ->
  Q.map (read_only g) (pre ++ x :: post) h = Throw e.
Proof.
  intros Hpre Hx. by apply (map_loop_throws g pre post x h e 0%nat).
Qed.

Lemma map_stops_at_first_throw_witness :
  Q.map (read_only (fun x (_ : nat) h => Q.field "a" x h))
    [VRef 0; VUndefined; VRef 1] single_store
  = Throw TypeError.
Proof.
  apply (map_stops_at_first_throw (fun x (_ : nat) h => Q.field "a" x h)
           [VRef 0] [VRef 1] VUndefined single_store TypeError).
  - intros [|i] y Hy; [|done]. injection Hy as <-. eexists. evaluate.
  - reflexivity.
Defined.

(** ** [Q.reduce] *)

(** X12: [Q.reduce] is the left fold: on the empty sequence it returns the
    initial value without calling [fn]; folding [l1 ++ l2] is folding [l2]
    from the result of folding [l1]; and with a step that never throws it is
    [fold_left]. *)
Theorem reduce_is_left_fold {A} (fn : A -> value -> result A) (init : A)
    (l1 l2 : list value) (step : A -> value -> A) :
  Q.reduce fn init [] = Ok init /\
  Q.reduce fn init (l1 ++ l2) = (a ← Q.reduce fn init l1; Q.reduce fn a l2) /\
  Q.reduce (fun a x => Ok (step a x)) init l1 = Ok (fold_left step l1 init).
Proof.
  split; [done|]. split.
  - revert init. induction l1 as [|x l1 IH]; intros init; simpl; [done|].
    destruct (fn init x) as [a|e]; simpl; [apply IH|done].
  - revert init. induction l1 as [|x l1 IH]; intros init; simpl; [done|].
    apply IH.
Qed.

(** ** [Q.group] on every sequence *)

Lemma concat_spread (arr : list value) (elt : value) :
  concat arr elt = arr ++ spread elt.
Proof. by destruct elt. Qed.







(** ** [Q.mixin] on every value *)

Lemma get_keys (h : heap) (obj : value) (key : string) :
  In key (keys h obj) -> exists v, get h obj key = Ok v.
Proof.
  intros Hkey.
  destruct obj as [| |b|n|s|l|id items]; try done; unfold get.
  - destruct (String.eqb key "length"); [eauto|].
    destruct (array_index key); eauto.
  - destruct (h !! l); eauto.
  - destruct (String.eqb key "length"); [eauto|].
    destruct (array_index key); eauto.
Qed.

Lemma copy_entries_returns (h : heap) (obj : value) (ks : list string) :
  (forall key, In key ks -> exists v, get h obj key = Ok v) ->
  forall res, exists res', Q.copy_entries h obj ks res = Ok res'.
Proof.
  induction ks as [|key ks IH]; intros Hks res; simpl; [eauto|].
  destruct (Hks key) as [v ->]; [by left|]. simpl.
  apply IH. intros; apply Hks; by right.
Qed.

(** X15: [Q.mixin] never throws, whatever its arguments are ([undefined],
    [null], strings and arrays included): [for (key in ...)] finds no key in
    [undefined] and [null] and reads only keys it found.  Every call
    allocates exactly one record and leaves the records of the store as they
    were. *)
Theorem mixin_never_throws (left right : value) (h : heap) :
  exists res, Q.mixin left right h = Ok (VRef (length h), h ++ [res]).
Proof.
  unfold Q.mixin.
  destruct (copy_entries_returns h left (keys h left) (get_keys h left) ∅)
    as [res1 ->].
  simpl.
  destruct (copy_entries_returns h right (keys h right) (get_keys h right)
              res1) as [res2 ->].
  simpl. by exists res2.
Qed.







(** ** [Q.amend]: the records it returns *)

Lemma amend_step_allocates (h : heap) (right : list value)
    (lKey rk : string) (l : value) (i : nat) :
  is_record h l ->
  Forall (is_record h) right ->
  exists (n : nat) ext',
    amend_step right lKey rk l i h = Ok (VRef n, h ++ ext') /\
    (length h <= n < length (h ++ ext'))%nat.
Proof.
  intros Hl Hright. unfold amend_step.
  rewrite (single_join_find _ _ _ _ _ Hl Hright).
  destruct Hl as [lf Hlf].
  destruct (List.find (join_match h lKey rk l) right) as [r|] eqn:Hfound;
    cbn [default from_option id mbind result_bind].
  - apply find_some in Hfound as [Hin _]. apply list_elem_of_In in Hin.
    rewrite Forall_forall in Hright. destruct (Hright r Hin) as [rf Hrf].
    rewrite (is_record_truthy h r) by (by exists rf).
    destruct (mixin_records l r lf rf h Hlf Hrf) as (res & -> & _).
    exists (length h), [res]. split; [done|]. rewrite length_app. simpl. lia.
  - cbn [truthy]. unfold alloc. cbn [mbind result_bind].
    destruct (mixin_records l (VRef (length h)) lf ∅ (h ++ [∅]))
      as (res & -> & _); [by apply fields_of_app|apply fields_of_alloc|].
    exists (length (h ++ [∅])), ([∅] ++ [res]).
    split; [by rewrite (app_assoc h [∅] [res])|].
    rewrite !length_app. simpl. lia.
Qed.

Lemma amend_loop_allocates (h : heap) (right : list value)
    (lKey rk : string) (left : list value) :
  Forall (is_record h) right ->
  Forall (is_record h) left ->
  forall (i : nat) ext,
    exists locs ext',
      Q.map_loop (amend_step right lKey rk) left i (h ++ ext)
      = Ok (List.map VRef locs, (h ++ ext) ++ ext') /\
      Forall (fun n => (length (h ++ ext) <= n
                        < length ((h ++ ext) ++ ext'))%nat) locs /\
      StronglySorted lt locs.
Proof.
  intros Hright Hleft.
  induction Hleft as [|l left Hl Hleft IH]; intros i ext.
  - exists [], []. rewrite app_nil_r. split; [done|].
    split; constructor.
  - assert (Hl' : is_record (h ++ ext) l).
    { destruct Hl as [m Hm]. exists m. by apply fields_of_app. }
    assert (Hright' : Forall (is_record (h ++ ext)) right).
    { eapply Forall_impl; [exact Hright|]. intros r [m Hm]. exists m.
      by apply fields_of_app. }
    destruct (amend_step_allocates (h ++ ext) right lKey rk l i Hl' Hright')
      as (n & ext1 & Hstep & Hn).
    destruct (IH (S i) (ext ++ ext1)) as (locs & ext2 & Hrun & Hlocs & Hsorted).
    assert (Heq : (h ++ ext ++ ext1) ++ ext2 = (h ++ ext) ++ ext1 ++ ext2)
      by (by rewrite <- !app_assoc).
    assert (Heq1 : h ++ ext ++ ext1 = (h ++ ext) ++ ext1)
      by (by rewrite <- !app_assoc).
    rewrite Heq, Heq1 in Hrun. rewrite Heq, Heq1 in Hlocs.
    exists (n :: locs), (ext1 ++ ext2).
    cbn [Q.map_loop List.map]. rewrite Hstep. cbn [mbind result_bind].
    rewrite Hrun. cbn [mbind result_bind].
    split; [done|]. split.
    + constructor.
      * cbn beta. repeat rewrite length_app in Hn. repeat rewrite length_app.
        lia.
      * eapply Forall_impl; [exact Hlocs|]. intros m Hm. cbn beta in Hm |- *.
        repeat rewrite length_app in Hm. repeat rewrite length_app. lia.
    + constructor; [done|].
      eapply Forall_impl; [exact Hlocs|]. intros m Hm. cbn beta in Hm.
      repeat rewrite length_app in Hn. repeat rewrite length_app in Hm. lia.
Qed.

(** X18: every element [Q.amend] returns is a record the call allocated:
    none of them is a record of the store before the call, so no output is
    an element of [left] or [right] itself, and no two outputs are the same
    record. *)
Theorem amend_returns_new_records (left right : list value) (lKey : string)
    (rKey : option string) (h : heap) :
  Forall (is_record h) left ->
  Forall (is_record h) right ->
  exists out h',
    Q.amend left right lKey rKey h = Ok (out, h') /\
    NoDup out /\
    forall o, In o out -> fields_of h o = None /\ is_record h' o.
Proof.
  intros Hleft Hright. rewrite amend_unfold. unfold Q.map.
  destruct (amend_loop_allocates h right lKey (right_key lKey rKey) left
              Hright Hleft 0%nat []) as (locs & ext' & Hrun & Hlocs & Hsorted).
  rewrite app_nil_r in Hrun, Hlocs.
  exists (List.map VRef locs), (h ++ ext'). split; [done|]. split.
  - apply NoDup_fmap_2; [by intros n m [= ->]|].
    clear Hrun Hlocs. induction Hsorted as [|n locs Hs IH Hn];
      constructor; [|done].
    intros Hin. rewrite Forall_forall in Hn. specialize (Hn n Hin). lia.
  - intros o Ho. apply in_map_iff in Ho as (n & <- & Hn).
    rewrite Forall_forall in Hlocs.
    specialize (Hlocs n (proj2 (list_elem_of_In _ _) Hn)). simpl in Hlocs.
    split.
    + unfold fields_of. apply lookup_ge_None. lia.
    + unfold is_record, fields_of. apply lookup_lt_is_Some. lia.
Qed.

Lemma amend_returns_new_records_witness :
  exists out h',
    Q.amend [VRef 0; VRef 1] [VRef 2] "id" None amend_store = Ok (out, h') /\
    NoDup out /\
    forall o, In o out -> fields_of amend_store o = None /\ is_record h' o.
Proof.
  apply (amend_returns_new_records [VRef 0; VRef 1] [VRef 2] "id" None
           amend_store).
  - repeat constructor; eexists; reflexivity.
  - repeat constructor; eexists; reflexivity.
Defined.

(** ** [Q.expand] *)




(** ** [Q.sort]: a sequence that is in order, and one that is not total *)

Lemma insert_rev_last {A} (comparefn : A -> A -> Z) (element : A)
    (rprefix : list A) :
  Forall (fun tmp => (0 <? comparefn tmp element) = false) rprefix ->
  insert_rev comparefn element rprefix = element :: rprefix.
Proof. intros [|tmp rest Htmp _]; simpl; [done|]. by rewrite Htmp. Qed.

(** The elements of an array no element of which has to move left stay
    where they are. *)
Lemma array_sort_in_order {A} (comparefn : A -> A -> Z) (a : list A) :
  StronglySorted (fun x y => (0 <? comparefn x y) = false) a ->
  array_sort comparefn a = a.
Proof.
  intros Hsorted. unfold array_sort.
  assert (Hfold : forall rprefix,
             Forall (fun x => Forall (fun y => (0 <? comparefn x y) = false) a)
               rprefix ->
             fold_left (fun rprefix element =>
                          insert_rev comparefn element rprefix) a rprefix
             = rev a ++ rprefix).
  { induction Hsorted as [|x a Ha IH Hx]; intros rprefix Hrp; [done|].
    cbn [fold_left]. rewrite insert_rev_last.
    - rewrite IH; [simpl; by rewrite <- app_assoc|].
      constructor; [done|].
      eapply Forall_impl; [exact Hrp|].
      intros y Hy. by apply Forall_cons in Hy as [_ Hy].
    - eapply Forall_impl; [exact Hrp|].
      intros y Hy. by apply Forall_cons in Hy as [Hy _]. }
  rewrite Hfold by constructor. rewrite app_nil_r. apply rev_involutive.
Qed.

Lemma sorted_values_in_order (fn : callback) (h : heap)
    (list_ : list value) :
  StronglySorted (fun x y => js_lt (key_of fn h y) (key_of fn h x) = false)
    list_ ->
  sorted_values fn h list_ = list_.
Proof.
  intros Hsorted. unfold sorted_values.
  rewrite array_sort_in_order; [apply undecorate|].
  induction Hsorted as [|x l Hl IH Hx]; simpl; constructor; [done|].
  apply Forall_map. eapply Forall_impl; [exact Hx|].
  intros y Hy. simpl.
  destruct (0 <? Q._compareKeys (decorate fn h x) (decorate fn h y)) eqn:Hc;
    [|done].
  apply compareKeys_positive in Hc as [_ Hc]. simpl in Hc. congruence.
Qed.

Lemma sort_key_total_permutation (f : key_specifier) (h : heap)
    (list_ out : list value) :
  Permutation list_ out ->
  (forall x, In x list_ -> exists k, sort_key f x h = Ok k) ->
  forall x, In x out -> exists k, sort_key f x h = Ok k.
Proof.
  intros Hperm Htotal x Hx. apply Htotal.
  by apply (Permutation_in _ (Permutation_sym Hperm)).
Qed.



(** X21: [Q.sort] is idempotent on keys that [<] ranks: sorting what it
    returned returns the same sequence. *)
Theorem sort_idempotent (f : key_specifier) (list_ : list value) (h : heap) :
  (forall x, In x list_ -> exists k, sort_key f x h = Ok k) ->
  keys_ordered (List.map (key_of (sort_key f) h) list_) ->
  exists out,
    Q.sort f list_ h = Ok (out, h) /\ Q.sort f out h = Ok (out, h).
Proof.
  intros Htotal Hordered. exists (sorted_values (sort_key f) h list_).
  split; [by apply sort_run|].
  rewrite sort_run.
  - rewrite sorted_values_in_order; [done|].
    by apply sorted_values_ascending.
  - eapply sort_key_total_permutation; [|exact Htotal].
    apply sorted_values_permutation.
Qed.

Lemma sort_idempotent_witness :
  exists out,
    Q.sort (FieldName "age") [VRef 0; VRef 1; VRef 2; VRef 3] sort_store
    = Ok (out, sort_store) /\
    Q.sort (FieldName "age") out sort_store = Ok (out, sort_store).
Proof.
  apply (sort_idempotent (FieldName "age")
           [VRef 0; VRef 1; VRef 2; VRef 3] sort_store).
  - intros x [<-|[<-|[<-|[<-|[]]]]]; eexists; evaluate.
  - apply finite_keys_ordered.
    intros k [<-|[<-|[<-|[<-|[]]]]]; eexists; evaluate.
Defined.



Lemma keyValue_loop_runs (fn : callback) (h : heap) (list_ : list value) :
  forall i : nat,
    match Q.map_loop (fun item (_ : nat) h =>
                        k ← fn item h; Ok ({| key := k; val := item |}, h))
            list_ i h with
    | Ok (kvs, h') => kvs = List.map (decorate fn h) list_ /\ h' = h
    | Throw _ => exists x, In x list_ /\ fn x h = Throw TypeError
    end.
Proof.
  induction list_ as [|x rest IH]; intros i; [done|].
  cbn [Q.map_loop]. destruct (fn x h) as [k|[]] eqn:Hk;
    cbn [mbind result_bind]; [|exists x; split; [by left|done]].
  specialize (IH (S i)).
  destruct (Q.map_loop _ rest (S i) h) as [[kvs h']|e];
    cbn [mbind result_bind].
  - destruct IH as [-> ->]. split; [|done]. cbn [List.map]. f_equal.
    unfold decorate. by rewrite (key_of_ok fn h x k Hk).
  - destruct IH as (y & Hy & Hthrow). exists y. split; [by right|done].
Qed.

(** X23: whatever the keys are, [Q.sort] loses and invents no element: it
    returns a permutation of the sequence and leaves the store as it was,
    unless the key function throws on an element, and then it throws. *)
Theorem sort_permutes_or_throws (f : key_specifier) (list_ : list value)
    (h : heap) :
  match Q.sort f list_ h with
  | Ok (out, h') => Permutation list_ out /\ h' = h
  | Throw _ => exists x, In x list_ /\ sort_key f x h = Throw TypeError
  end.
Proof.
  unfold Q.sort. fold (sort_key f). unfold Q._keyValue, Q.map.
  pose proof (keyValue_loop_runs (sort_key f) h list_ 0%nat) as Hrun.
  destruct (Q.map_loop _ list_ 0%nat h) as [[kvs h']|e];
    cbn [mbind result_bind]; [|done].
  destruct Hrun as [-> ->]. rewrite pluck_val_spec. split; [|done].
  apply (sorted_values_permutation (sort_key f) h list_).
Qed.

(** ** [Q.lay]: how many members, which, and in what order *)







(** ** The functions that enumerate the keys of an object *)

Lemma taper_loop_collects (f : callback2) (h : heap) (obj : value)
    (ks : list string) (res : list value) :
  Q.taper_loop (fun acc v k => y ← f v k h; Ok (acc ++ [y])) h obj ks res
  = Q.collect_loop f h obj ks res.
Proof.
  revert res. induction ks as [|key ks IH]; intros res; [done|].
  cbn [Q.taper_loop Q.collect_loop].
  destruct (get h obj key) as [v|e]; cbn [mbind result_bind]; [|done].
  destruct (f v (VStr key) h) as [y|e]; cbn [mbind result_bind]; [|done].
  apply IH.
Qed.

(** X27: [Q.collect] is [Q.taper] with the accumulator that appends what
    [f] returns: on every object, and when either throws so does the
    other. *)
Theorem taper_appending_is_collect (f : callback2) (obj : value) (h : heap) :
  Q.taper (fun acc v k => y ← f v k h; Ok (acc ++ [y])) [] obj h
  = Q.collect f obj h.
Proof. apply taper_loop_collects. Qed.

Lemma abate_loop_flattens (f : callback2) (h : heap) (obj : value)
    (ks : list string) (res : list value) :
  Q.abate_loop f h obj ks (flat_map spread res)
  = (ys ← Q.collect_loop f h obj ks res; Ok (flat_map spread ys)).
Proof.
  revert res. induction ks as [|key ks IH]; intros res; [done|].
  cbn [Q.abate_loop Q.collect_loop].
  destruct (get h obj key) as [v|e]; cbn [mbind result_bind]; [|done].
  destruct (f v (VStr key) h) as [y|e]; cbn [mbind result_bind]; [|done].
  rewrite <- IH. f_equal. rewrite concat_spread, flat_map_app. simpl.
  by rewrite app_nil_r.
Qed.

(** X28: [Q.abate] returns what [Q.collect] returns, flattened by one
    level: a result of [f] that is an array contributes its members, any
    other result itself. *)
Theorem abate_flattens_collect (f : callback2) (obj : value) (h : heap) :
  Q.abate f obj h = (ys ← Q.collect f obj h; Ok (flat_map spread ys)).
Proof. apply (abate_loop_flattens f h obj (keys h obj) []). Qed.

Lemma fields_of_ref (h : heap) (obj : value) (m : record) :
  fields_of h obj = Some m -> exists l : nat, obj = VRef l /\ h !! l = Some m.
Proof. destruct obj; try done. intros Hm. eauto. Qed.






